(** * DECIDR scoring engine ([compute_options] of [app.py])

    A shallow embedding of the decision scoring engine of the DECIDR pilot
    application, followed by the properties its specification states about it.

    Python's [float] is IEEE 754 binary64; it is modelled by Rocq's primitive
    [float], which is the same format with the same round-to-nearest-even
    arithmetic, so every definition below can be evaluated bit for bit on
    concrete inputs.  Reasoning about the operations goes through the
    [SpecFloat] specification of the primitives.

    Exceptions are explicit: the functions return in [Py.result].  The module
    namespace is a parameter of [compute_options], because line 106 reads the
    global [math], which [app.py] never binds. *)

From Stdlib Require Import ZArith List String Bool Lia Floats Sorted Permutation.
From Stdlib Require DecimalString DecimalN.
Import ListNotations.

Set Warnings "-inexact-float".

Local Open Scope string_scope.
Local Open Scope float_scope.

(** ** A small model of the Python runtime *)

Module Py.

(** The exceptions the engine's code can raise. *)
Inductive exn : Type :=
| KeyError (key : string)
| NameError (name : string)
| ZeroDivisionError.

Inductive result (A : Type) : Type :=
| Ok (a : A)
| Raise (e : exn).

Arguments Ok {A} a.
Arguments Raise {A} e.

Definition bind {A B : Type} (r : result A) (k : A -> result B) : result B :=
  match r with
  | Ok a => k a
  | Raise e => Raise e
  end.

(** [for x in xs: ...] where the body may raise: left to right, stopping at
    the first exception. *)
Fixpoint mapM {A B : Type} (f : A -> result B) (xs : list A) : result (list B) :=
  match xs with
  | [] => Ok []
  | x :: xs' =>
      bind (f x) (fun y => bind (mapM f xs') (fun ys => Ok (y :: ys)))
  end.

(** [x / y] on floats: raises [ZeroDivisionError] when [y] is [0.0] or
    [-0.0], and is IEEE division otherwise. *)
Definition truediv (x y : float) : result float :=
  if y =? 0 then Raise ZeroDivisionError else Ok (x / y).

(** [max(a, b)] and [min(a, b)] keep the first argument unless the second
    one is strictly greater (resp. smaller). *)
Definition max (a b : float) : float := if a <? b then b else a.
Definition min (a b : float) : float := if b <? a then b else a.

(** [math.isinf] *)
Definition isinf (x : float) : bool := abs x =? infinity.

(** [d[k]] on a dict literal. *)
Fixpoint getitem {V : Type} (d : list (string * V)) (k : string) : result V :=
  match d with
  | [] => Raise (KeyError k)
  | (k', v) :: d' => if String.eqb k k' then Ok v else getitem d' k
  end.

(** A module namespace: the names bound at module level.  A name that a
    function body mentions and that is neither local nor bound here nor a
    builtin raises [NameError] when the line that mentions it runs. *)
Definition namespace := list string.

Definition builtins : namespace :=
  ["max"; "min"; "float"; "sorted"; "str"; "int"; "enumerate"; "__import__"].

Definition bound (g : namespace) (x : string) : bool :=
  existsb (String.eqb x) (g ++ builtins).

Definition load_global (g : namespace) (x : string) : result unit :=
  if bound g x then Ok tt else Raise (NameError x).

(** [sorted(xs, key=..., reverse=True)] once the keys are computed: a
    stable sort into descending key order.  [insert_desc] puts [x], which
    comes before every element of [l] in the input, in front of the first
    element whose key is not greater than its own. *)
Fixpoint insert_desc {A : Type} (x : float * A) (l : list (float * A)) : list (float * A) :=
  match l with
  | [] => [x]
  | y :: l' => if fst x <? fst y then y :: insert_desc x l' else x :: l
  end.

Definition sort_desc {A : Type} (l : list (float * A)) : list (float * A) :=
  fold_right insert_desc [] l.

End Py.

Import Py.

Notation "x <- c1 ;; c2" := (Py.bind c1 (fun x => c2))
  (at level 61, c1 at next level, right associativity).

(** ** The module [app.py] *)

(** The names [app.py] binds at module level before [compute_options] is
    called: its imports (lines 1-6), the form fields (lines 21-29) and its
    three functions. *)
Definition app_globals : namespace :=
  ["st"; "BytesIO"; "A4"; "SimpleDocTemplate"; "Paragraph"; "Spacer"; "Table";
   "TableStyle"; "getSampleStyleSheet"; "colors";
   "org_name"; "location"; "annual_elec_kwh"; "annual_bill_gbp";
   "carbon_target_year"; "budget_gbp"; "roof_or_land"; "include_battery";
   "submitted"; "fmt_gbp"; "compute_options"; "build_pdf"].

(** The option dictionaries of [compute_options].  The key ["score"] is absent
    from the literals of lines 76-101 and is set by the loop of lines 104-107. *)
Record option_dict : Type := mk_option {
  name : string;
  capex : float;
  annual_savings : float;
  payback_years : float;
  co2_saved_t : float;
  notes : string;
  score : option float
}.

Definition set_score (o : option_dict) (s : float) : option_dict :=
  mk_option (name o) (capex o) (annual_savings o) (payback_years o)
            (co2_saved_t o) (notes o) (Some s).

(** The three feasibility tiers and the strings the form passes for them. *)
Inductive tier : Type := High | Medium | Low.

Definition tier_key (t : tier) : string :=
  match t with
  | High => "High (good roof/land)"
  | Medium => "Medium"
  | Low => "Low / constrained"
  end.

Definition multiplier (t : tier) : float :=
  match t with
  | High => 1.0
  | Medium => 0.75
  | Low => 0.45
  end.

Definition feas_table : list (string * float) :=
  [("High (good roof/land)", 1.0); ("Medium", 0.75); ("Low / constrained", 0.45)].

Definition co2_factor : float := 0.20.

Definition name_solar_batt := "Install Solar + Battery".
Definition name_solar := "Install Solar (no battery)".
Definition name_ppa := "Renewable PPA (Power Purchase Agreement)".
Definition name_offsets := "Buy Verified Offsets".
Definition notes_phased := "Phased to match budget.".
Definition notes_onsite :=
  "On-site generation reduces bills and exposure to volatility.".
Definition notes_ppa :=
  "Low CAPEX; contractual green supply; depends on counterparty and terms.".
Definition notes_offsets :=
  "Improves reporting but does not reduce energy costs; quality varies.".

(** Line 50: the clamped CAPEX estimate of the on-site option. *)
Definition clamped_capex (annual_kwh feas_mult : float) : result float :=
  q <- truediv ((annual_kwh * 1.15) * feas_mult) 1000.0 ;;
  Ok (Py.max 500000.0 (Py.min 8000000.0 q)).

(** Lines 52-55: phasing to the budget.  Returns [(phased, capex_solar_batt)]. *)
Definition phase (budget capex_solar_batt : float) : bool * float :=
  if (0 <? budget) && (budget <? capex_solar_batt)
  then (true, budget)
  else (false, capex_solar_batt).

(** Lines 40-101: the list [options], in its fixed order. *)
Definition build_options (annual_bill annual_kwh budget : float)
    (feasibility : string) (include_batt : bool) : result (list option_dict) :=
  feas_mult <- getitem feas_table feasibility ;;
  let save_frac := 0.70 * feas_mult in
  let save_frac := if negb include_batt then 0.55 * feas_mult else save_frac in
  capex_solar_batt <- clamped_capex annual_kwh feas_mult ;;
  let '(phased, capex_solar_batt) := phase budget capex_solar_batt in
  let annual_savings := annual_bill * save_frac in
  payback <- (if 0 <? annual_savings
              then truediv capex_solar_batt annual_savings
              else Ok infinity) ;;
  q <- truediv ((annual_kwh * save_frac) * co2_factor) 1000.0 ;;
  let co2_saved_t := q in
  let capex_ppa := 25000.0 in
  let savings_ppa := annual_bill * (0.18 * feas_mult) in
  payback_ppa <- (if 0 <? savings_ppa
                  then truediv capex_ppa savings_ppa
                  else Ok infinity) ;;
  q <- truediv ((annual_kwh * 0.30) * co2_factor) 1000.0 ;;
  let co2_saved_ppa_t := q in
  q <- truediv (annual_kwh * co2_factor) 1000.0 ;;
  let capex_offsets := q * 30.0 in
  let savings_offsets := 0.0 in
  let payback_offsets := infinity in
  q <- truediv (annual_kwh * co2_factor) 1000.0 ;;
  let co2_saved_offsets_t := q in
  Ok [ mk_option (if include_batt then name_solar_batt else name_solar)
                 capex_solar_batt annual_savings payback co2_saved_t
                 (if phased then notes_phased else notes_onsite) None;
       mk_option name_ppa capex_ppa savings_ppa payback_ppa co2_saved_ppa_t
                 notes_ppa None;
       mk_option name_offsets capex_offsets savings_offsets payback_offsets
                 co2_saved_offsets_t notes_offsets None ].

(** Line 106: [0 if math.isinf(pb) else max(0.0, 10.0 - pb)]. *)
Definition pb_score (pb : float) : float :=
  if isinf pb then 0 else Py.max 0.0 (10.0 - pb).

(** Line 107, as a function of the record's fields and of the two inputs it
    reads. *)
Definition score_formula (annual_bill annual_kwh : float)
    (savings pb_sc co2 : float) : result float :=
  q1 <- truediv savings (Py.max annual_bill 1.0) ;;
  d <- truediv (annual_kwh * co2_factor) 1000.0 ;;
  q3 <- truediv co2 (Py.max d 1e-6) ;;
  Ok (q1 * 10.0 + pb_sc + q3 * 5.0).

(** Lines 105-107: the body of the scoring loop.  [math] is looked up in the
    module namespace when line 106 runs. *)
Definition score_option (g : namespace) (annual_bill annual_kwh : float)
    (o : option_dict) : result option_dict :=
  let pb := payback_years o in
  _ <- load_global g "math" ;;
  let pb_sc := pb_score pb in
  s <- score_formula annual_bill annual_kwh (annual_savings o) pb_sc (co2_saved_t o) ;;
  Ok (set_score o s).

(** Line 109: the key function [lambda x: x["score"]]. *)
Definition score_key (o : option_dict) : result (float * option_dict) :=
  match score o with
  | Some s => Ok (s, o)
  | None => Raise (KeyError "score")
  end.

Definition sorted_by_score (options : list option_dict) : result (list option_dict) :=
  keyed <- mapM score_key options ;;
  Ok (map snd (sort_desc keyed)).

(** [compute_options], run in a module whose namespace is [g]. *)
Definition compute_options (g : namespace)
    (annual_bill annual_kwh budget : float) (feasibility : string)
    (include_batt : bool) : result (list option_dict) :=
  options <- build_options annual_bill annual_kwh budget feasibility include_batt ;;
  options <- mapM (score_option g annual_bill annual_kwh) options ;;
  sorted_by_score options.

(** The namespace of [app.py] with [import math] added to it.  A binding of
    [math] is taken to be the standard library module, so that [math.isinf]
    is [Py.isinf]. *)
Definition with_math (g : namespace) : namespace := "math" :: g.

(** ** Closed forms

    The values the straight-line code of [compute_options] computes, named so
    that the statements below can refer to them.  Each of them is shown equal
    to what the embedding above returns ([build_options_eq],
    [score_option_eq], [compute_options_eq]). *)

(** The clamped, unconstrained CAPEX estimate of the on-site option. *)
Definition estimate (annual_kwh : float) (t : tier) : float :=
  Py.max 500000.0 (Py.min 8000000.0 (((annual_kwh * 1.15) * multiplier t) / 1000.0)).

(** The fraction of the bill the on-site option saves (lines 44-46). *)
Definition save_frac (t : tier) (include_batt : bool) : float :=
  if include_batt then 0.70 * multiplier t else 0.55 * multiplier t.

(** Lines 58 and 67: the guarded quotient. *)
Definition payback_of (capex savings : float) : float :=
  if 0 <? savings then capex / savings else infinity.

(** Total addressable emissions, [annual_kwh * co2_factor / 1000.0]. *)
Definition emissions (annual_kwh : float) : float :=
  (annual_kwh * co2_factor) / 1000.0.

(** The three dictionaries of lines 76-101. *)
Definition onsite (annual_bill annual_kwh budget : float) (t : tier)
    (include_batt : bool) : option_dict :=
  let c := phase budget (estimate annual_kwh t) in
  let s := annual_bill * save_frac t include_batt in
  mk_option (if include_batt then name_solar_batt else name_solar)
            (snd c) s (payback_of (snd c) s)
            (((annual_kwh * save_frac t include_batt) * co2_factor) / 1000.0)
            (if fst c then notes_phased else notes_onsite) None.

Definition ppa (annual_bill annual_kwh : float) (t : tier) : option_dict :=
  let s := annual_bill * (0.18 * multiplier t) in
  mk_option name_ppa 25000.0 s (payback_of 25000.0 s)
            (((annual_kwh * 0.30) * co2_factor) / 1000.0) notes_ppa None.

Definition offsets (annual_kwh : float) : option_dict :=
  mk_option name_offsets (emissions annual_kwh * 30.0) 0.0 infinity
            (emissions annual_kwh) notes_offsets None.

(** Line 107 as a function of the three fields it reads. *)
Definition score_value (annual_bill annual_kwh : float)
    (savings pb co2 : float) : float :=
  (savings / Py.max annual_bill 1.0) * 10.0 + pb_score pb
  + (co2 / Py.max (emissions annual_kwh) 1e-6) * 5.0.

Definition score_of (annual_bill annual_kwh : float) (o : option_dict) : float :=
  score_value annual_bill annual_kwh (annual_savings o) (payback_years o) (co2_saved_t o).

Definition scored (annual_bill annual_kwh : float) (o : option_dict) : option_dict :=
  set_score o (score_of annual_bill annual_kwh o).

(** The three scored records in their identity order. *)
Definition identity_order (annual_bill annual_kwh budget : float) (t : tier)
    (include_batt : bool) : list option_dict :=
  map (scored annual_bill annual_kwh)
      [onsite annual_bill annual_kwh budget t include_batt;
       ppa annual_bill annual_kwh t;
       offsets annual_kwh].

(** ** Vocabulary of the statements *)

(** Which of the three options a record is, by its name. *)
Definition is_onsite (o : option_dict) : bool :=
  String.eqb (name o) name_solar_batt || String.eqb (name o) name_solar.
Definition is_ppa (o : option_dict) : bool := String.eqb (name o) name_ppa.
Definition is_offsets (o : option_dict) : bool := String.eqb (name o) name_offsets.

(** [x] lies in the closed interval [[lo, hi]]. *)
Definition within (lo hi x : float) : Prop :=
  (lo <=? x) = true /\ (x <=? hi) = true.

(** The documented input domain: a non-negative real amount, that is, a float
    that is neither NaN nor infinite and is at least zero. *)
Definition amount (x : float) : Prop :=
  (0 <=? x) = true /\ (x <? infinity) = true.

(** The sentence of the specification on the on-site CAPEX, as it is
    written. *)
Definition capex_bounds_as_specified (budget est : float) (o : option_dict) : Prop :=
  if (0 <? budget) && (budget <? est)
  then within 500000.0 budget (capex o) /\ capex o = budget /\ notes o = notes_phased
  else within 500000.0 8000000.0 (capex o).

(** The pair [sorted] builds for a record: its key and the record. *)
Definition keyed (o : option_dict) : float * option_dict :=
  (match score o with Some s => s | None => 0 end, o).

(** What [sorted] makes of a list of scored records. *)
Definition ranking (l : list option_dict) : list option_dict :=
  map snd (sort_desc (map keyed l)).

(** ** Rounding, seen through integer keys

    The statements on the score need the float operations to be monotone.
    [SpecFloat] rounds by shifting a record (mantissa, round bit, sticky bit)
    to the right and then rounding to nearest even.  Such a record is read
    here as one integer, its key [4 * m + 2 * r + s]: the key of the exact
    value [N / D] is [Key N D], a right shift by one bit is [half_key], the
    final rounding is [rne_key], and all three are monotone. *)

Local Open Scope Z_scope.

(** The key of a shift record whose mantissa is not negative. *)
Definition key_of (mrs : shr_record) : Z :=
  4 * shr_m mrs + (if shr_r mrs then 2 else 0) + (if shr_s mrs then 1 else 0).

(** What [shr_1] does to a key. *)
Definition half_key (k : Z) : Z := 2 * (k / 4) + (if k mod 4 =? 0 then 0 else 1).

(** The key of the exact value [N / D]: four times its floor, plus 0 when the
    value is an integer, 1, 2 or 3 when its fractional part is below, at or
    above one half. *)
Definition Key (N D : Z) : Z :=
  2 * ((2 * N) / D) + (if (2 * N) mod D =? 0 then 0 else 1).

(** What [round_nearest_even] makes of a key. *)
Definition rne_key (k : Z) : Z :=
  let m := k / 4 in
  let c := k mod 4 in
  if c <? 2 then m
  else if c =? 2 then (if Z.even m then m else m + 1)
  else m + 1.

(** The location of [N / D] between its floor and the next integer. *)
Definition loc_of (N D : Z) : location :=
  let r := N mod D in
  if r =? 0 then loc_Exact else loc_Inexact (2 * r ?= D).

(** The exponent binary64 gives to the value [N / D * 2 ^ e]. *)
Definition target (N D e : Z) : Z := fexp prec emax (Zdigits2 (N / D) + e).

(** The binary64 rounding of the exact value [N / D * 2 ^ e], as
    [SFmul], [SFdiv], [SFadd] and [SFsub] compute it. *)
Definition rnd (N D e : Z) : spec_float :=
  binary_round_aux prec emax false (N / D) e (loc_of N D).

(** The float with mantissa [m] and exponent [t], renormalised when the
    rounding carried into bit 53, and infinite when [t] is out of range. *)
Definition finish (m t : Z) : spec_float :=
  if m =? 0 then S754_zero false
  else if m =? 2 ^ 53
       then (if t + 1 <=? 971 then S754_finite false (Z.to_pos (2 ^ 52)) (t + 1)
             else S754_infinity false)
       else (if t <=? 971 then S754_finite false (Z.to_pos m) t
             else S754_infinity false).

(** [N1 / D1 * 2 ^ e1 <= N2 / D2 * 2 ^ e2], in integers. *)
Definition vle (N1 D1 e1 N2 D2 e2 : Z) : Prop :=
  exists L, L <= e1 /\ L <= e2
            /\ N1 * D2 * 2 ^ (e1 - L) <= N2 * D1 * 2 ^ (e2 - L).

(** [f] is the rounding of the exact value [N / D * 2 ^ e], given finely
    enough for the rounding to see all of it. *)
Definition repr (f : spec_float) (N D e : Z) : Prop :=
  f = rnd N D e /\ 0 <= N /\ 0 < D /\ e <= target N D e.

(** The valid floats that are at least zero: a zero of either sign, a
    positive finite float in canonical form, or +infinity. *)
Definition nnf (f : spec_float) : Prop :=
  match f with
  | S754_zero _ => True
  | S754_infinity false => True
  | S754_finite false m e => bounded prec emax m e = true
  | _ => False
  end.

(** The same without +infinity. *)
Definition nnfin (f : spec_float) : Prop :=
  match f with
  | S754_zero _ => True
  | S754_finite false m e => bounded prec emax m e = true
  | _ => False
  end.

Definition nonneg_sf (f : spec_float) : Prop :=
  SFleb (S754_zero false) f = true.

(** Mantissa and exponent of a float, a zero counting as [0 * 2 ^ dflt]. *)
Definition mant (f : spec_float) : Z :=
  match f with S754_finite _ m _ => Z.pos m | _ => 0 end.

Definition expo (dflt : Z) (f : spec_float) : Z :=
  match f with S754_finite _ _ e => e | _ => dflt end.

(** [max(0.0, c - f)] on specification floats. *)
Definition clip_sub (c f : spec_float) : spec_float :=
  let r := SFsub prec emax c f in
  if SFltb (S754_zero false) r then r else S754_zero false.

Local Close Scope Z_scope.

(** [x >= 0] in the float order: [x] is no NaN and is a zero, a positive
    float or +infinity. *)
Definition nonneg (x : float) : Prop := (0 <=? x) = true.

(** [0 < c < +infinity]. *)
Definition posfin (c : float) : Prop :=
  (0 <? c) = true /\ (c <? infinity) = true.

(** The largest finite binary64 float. *)
Definition max_float : float := 0x1.fffffffffffffp+1023.

(** ** Vocabulary of the ranking and payback statements *)

(** [a] ranks at least as high as [b]. *)
Definition score_ge (a b : option_dict) : Prop :=
  match score a, score b with
  | Some x, Some y => (y <=? x) = true
  | _, _ => False
  end.

(** The record's score equals [v]. *)
Definition has_score (v : float) (o : option_dict) : bool :=
  match score o with
  | Some s => s =? v
  | None => false
  end.

(** A list of scored records is a stable descending sort of [l0]: it holds
    the same records, scores never increase along it, and the records of any
    one score keep the order they have in [l0]. *)
Definition stable_descending_sort (l0 l : list option_dict) : Prop :=
  Permutation l l0
  /\ StronglySorted score_ge l
  /\ forall v, filter (has_score v) l = filter (has_score v) l0.

(** Order and validity of the keys [sorted] compares. *)
Definition key_ge {A : Type} (x y : float * A) : Prop := (fst y <=? fst x) = true.

Definition key_nonneg {A : Type} (x : float * A) : Prop := nonneg (fst x).

Definition scored_nonneg (o : option_dict) : Prop :=
  exists s, score o = Some s /\ nonneg s.

(** C10: every field the ranking reads is at least zero. *)
Definition nonneg_record (o : option_dict) : Prop :=
  nonneg (capex o) /\ nonneg (annual_savings o) /\ nonneg (co2_saved_t o)
  /\ scored_nonneg o.

(** C4, as the specification words it. *)
Definition payback_as_specified (o : option_dict) : Prop :=
  nonneg (payback_years o)
  /\ ((0 <? annual_savings o) = true ->
      payback_years o = capex o / annual_savings o)
  /\ (payback_years o = infinity <-> (annual_savings o =? 0) = true).

(** C4, as the code has it: the quotient itself may overflow. *)
Definition payback_law (o : option_dict) : Prop :=
  nonneg (payback_years o)
  /\ ((0 <? annual_savings o) = true ->
      payback_years o = capex o / annual_savings o)
  /\ ((annual_savings o =? 0) = true -> payback_years o = infinity)
  /\ (payback_years o = infinity ->
      (annual_savings o =? 0) = true
      \/ ((0 <? annual_savings o) = true
          /\ capex o / annual_savings o = infinity)).

(** C5, the strictness the specification words: the score strictly decreases
    when the payback grows within [[0, 10]]. *)
Definition strictly_decreasing_in_payback (bill kwh s c : float) : Prop :=
  forall p1 p2, nonneg p1 -> (p1 <? p2) = true -> (p2 <=? 10) = true ->
    (score_value bill kwh s p2 c <? score_value bill kwh s p1 c) = true.

(** C8, as the specification words the offsets record: its CAPEX is
    [annual_kwh * (0.20 / 1000) * 30]. *)
Definition offsets_as_specified (kwh : float) (o : option_dict) : Prop :=
  annual_savings o = 0
  /\ payback_years o = infinity
  /\ capex o = (kwh * (0.20 / 1000.0)) * 30.0
  /\ co2_saved_t o = (kwh * 0.20) / 1000.0.

(** C8, as the code has it: line 71 multiplies, divides and multiplies from
    left to right. *)
Definition offsets_law (kwh : float) (o : option_dict) : Prop :=
  annual_savings o = 0
  /\ payback_years o = infinity
  /\ capex o = ((kwh * 0.20) / 1000.0) * 30.0
  /\ co2_saved_t o = (kwh * 0.20) / 1000.0.



(** ** The caller of the engine (lines 187-189) *)

(** [compute_options] returns a list in which the record picked out by [sel]
    is [o]. *)
Definition returns (sel : option_dict -> bool) (g : namespace)
    (annual_bill annual_kwh budget : float) (feasibility : string)
    (include_batt : bool) (o : option_dict) : Prop :=
  exists l,
    compute_options g annual_bill annual_kwh budget feasibility include_batt = Ok l
    /\ filter sel l = [o].

(** What the page can raise on submission: an exception of the engine, or the
    [IndexError] of [options_sorted[0]]. *)
Inductive page_exn : Type :=
| Engine (e : exn)
| IndexError.

(** Lines 188-189: [options_sorted = compute_options(...)] and
    [chosen = options_sorted[0]]. *)
Definition recommend (g : namespace) (annual_bill annual_kwh budget : float)
    (feasibility : string) (include_batt : bool)
    : list option_dict * option_dict + page_exn :=
  match compute_options g annual_bill annual_kwh budget feasibility include_batt with
  | Raise e => inr (Engine e)
  | Ok options_sorted =>
      match options_sorted with
      | [] => inr IndexError
      | chosen :: _ => inl (options_sorted, chosen)
      end
  end.

(** [a] comes strictly before [b] in [l]. *)
Definition before {A : Type} (l : list A) (a b : A) : Prop :=
  exists l1 l2 l3, l = (l1 ++ a :: l2 ++ b :: l3)%list.

(** The tiers from worst to best. *)
Definition tier_rank (t : tier) : nat :=
  match t with Low => 0 | Medium => 1 | High => 2 end.

Definition tier_le (t1 t2 : tier) : Prop := (tier_rank t1 <= tier_rank t2)%nat.

(** * Display *)

Section Display.
Import Ascii DecimalString.

(** ** Number formatting ([fmt_gbp], line 31, and the format specs of the page) *)

Local Open Scope Z_scope.

(** The integer nearest to [n / d], ties going to the even one. *)
Definition rhe_div (n d : Z) : Z :=
  let q := n / d in
  let r := n mod d in
  if 2 * r <? d then q
  else if 2 * r =? d then (if Z.even q then q else q + 1)
  else q + 1.

(** [m * 2 ^ e * 10 ^ p] rounded to the nearest integer, ties to even: the
    digits a correctly rounded [".pf"] conversion prints for the float
    [m * 2 ^ e]. *)
Definition scaled (p : nat) (m : positive) (e : Z) : Z :=
  let n := Z.pos m * 10 ^ Z.of_nat p in
  if 0 <=? e then n * 2 ^ e else rhe_div n (2 ^ (- e)).

(** Decimal digits of a natural number, most significant first. *)
Definition digits_of (n : Z) : list ascii :=
  list_ascii_of_string (NilZero.string_of_uint (N.to_uint (Z.to_N n))).

(** The thousands separator of the [","] format option, on the digits in
    reverse order. *)
Fixpoint group_rev (cs : list ascii) : list ascii :=
  match cs with
  | a :: b :: c :: rest =>
      match rest with
      | [] => cs
      | _ :: _ => a :: b :: c :: ","%char :: group_rev rest
      end
  | _ => cs
  end.

Definition thousands (ds : list ascii) : list ascii := rev (group_rev (rev ds)).

(** [ds] padded with zeros on the left to [p] characters. *)
Definition zfill (p : nat) (ds : list ascii) : list ascii :=
  repeat "0"%char (p - List.length ds) ++ ds.

(** The digits of [format(x, ".pf")] for a magnitude already scaled and
    rounded: integer part, then a point and [p] decimals when [p > 0]. *)
Definition fixed_digits (grouping : bool) (p : nat) (n : Z) : list ascii :=
  let ip := digits_of (n / 10 ^ Z.of_nat p) in
  let ip := if grouping then thousands ip else ip in
  match p with
  | O => ip
  | S _ => ip ++ "."%char :: zfill p (digits_of (n mod 10 ^ Z.of_nat p))
  end.

Local Close Scope Z_scope.

(** [format(x, ",.pf")] when [grouping], [format(x, ".pf")] otherwise. *)
Definition format_f (grouping : bool) (p : nat) (x : float) : string :=
  match Prim2SF x with
  | S754_nan => "nan"
  | S754_infinity s => (if s then "-" else "") ++ "inf"
  | S754_zero s =>
      (if s then "-" else "") ++ string_of_list_ascii (fixed_digits grouping p 0)
  | S754_finite s m e =>
      (if s then "-" else "")
      ++ string_of_list_ascii (fixed_digits grouping p (scaled p m e))
  end.

(** Lines 31-32. *)
Definition fmt_gbp (x : float) : string := "£" ++ format_f true 0 x.


(** Reading a formatted amount back: an optional sign, then decimal digits
    between which commas are skipped. *)
Definition strip_commas (cs : list ascii) : list ascii :=
  filter (fun c => negb (Ascii.eqb c ",")) cs.

Definition read_digits (ds : list ascii) : option Z :=
  option_map (fun d => Z.of_N (N.of_uint d))
             (NilZero.uint_of_string (string_of_list_ascii (strip_commas ds))).

Definition read_amount (body : string) : option (bool * Z) :=
  match list_ascii_of_string body with
  | ("-"%char :: ds)%list => option_map (pair true) (read_digits ds)
  | ds => option_map (pair false) (read_digits ds)
  end.

Definition is_digit (c : ascii) : bool :=
  (48 <=? nat_of_ascii c)%nat && (nat_of_ascii c <=? 57)%nat.

(** [n] is the integer nearest to [m * 2 ^ e * 10 ^ p], the even one of the
    two when that value lies half way. *)
Definition nearest_scaled (p : nat) (m : positive) (e n : Z) : Prop :=
  let d := (2 ^ Z.max 0 (- e))%Z in
  let v := (Z.pos m * 10 ^ Z.of_nat p * 2 ^ Z.max 0 e)%Z in
  (2 * Z.abs (n * d - v) <= d)%Z
  /\ ((2 * Z.abs (n * d - v) = d)%Z -> Z.even n = true).

(** The pounds [fmt_gbp] shows for a float that is zero or finite. *)
Definition pounds (f : spec_float) : Z :=
  match f with
  | S754_finite _ m e => scaled 0 m e
  | _ => 0%Z
  end.

(** ** The options table of the report (lines 155-164 of [build_pdf]) *)

(** [str(i)] for an [int] that is not negative. *)
Definition str_nat (i : nat) : string := NilZero.string_of_uint (Nat.to_uint i).

(** [enumerate(l, start=start)]. *)
Fixpoint enumerate {A : Type} (l : list A) (start : nat) : list (nat * A) :=
  match l with
  | [] => []
  | x :: l' => (start, x) :: enumerate l' (S start)
  end.

(** Line 155. *)
Definition table_header : list string :=
  ["Rank"; "Option"; "CAPEX"; "Annual savings"; "Payback (yrs)"; "CO₂ saved (t/yr)"].

(** Lines 157-164: one row.  The cells are evaluated from left to right; the
    globals [fmt_gbp] and [math] are looked up when their cell is reached. *)
Definition table_row (g : namespace) (i : nat) (o : option_dict) : result (list string) :=
  let rank := str_nat i in
  let option := name o in
  _ <- load_global g "fmt_gbp" ;;
  let capex_cell := fmt_gbp (capex o) in
  let savings_cell := fmt_gbp (annual_savings o) in
  _ <- load_global g "math" ;;
  let payback_cell :=
    if isinf (payback_years o) then "∞" else format_f false 2 (payback_years o) in
  let co2_cell := format_f false 0 (co2_saved_t o) in
  Ok [rank; option; capex_cell; savings_cell; payback_cell; co2_cell].

(** Lines 155-164: the header, then a row for each of the first three
    options. *)
Definition table_data (g : namespace) (options_sorted : list option_dict)
    : result (list (list string)) :=
  rows <- mapM (fun io => table_row g (fst io) (snd io))
               (enumerate (firstn 3 options_sorted) 1) ;;
  Ok (table_header :: rows).

(** The cell in column [k] of a row. *)
Definition cell (k : nat) (row : list string) : string := nth k row "".

End Display.

(** * Proofs *)

(** ** Order facts on floats *)

Lemma ltb_leb (x y : float) : (x <? y) = true -> (x <=? y) = true.
Proof.
  rewrite ltb_spec, leb_spec. unfold SFltb, SFleb.
  now destruct (SFcompare (Prim2SF x) (Prim2SF y)) as [[]|].
Qed.

Lemma eqb_zero_not_pos (x : float) : (x =? 0) = true -> (0 <? x) = false.
Proof.
  rewrite ltb_spec, eqb_spec. unfold SFltb, SFeqb.
  change (Prim2SF 0) with (S754_zero false).
  destruct (Prim2SF x) as [s|s| |s m e]; simpl; try discriminate; auto;
    destruct s; auto.
Qed.

Lemma SFcompare_refl (f : spec_float) : f <> S754_nan -> SFcompare f f = Some Eq.
Proof.
  destruct f as [s|s| |s m e]; cbn; try congruence; intros _.
  - now destruct s.
  - rewrite Z.compare_refl. fold (Pos.compare m m). rewrite Pos.compare_refl.
    now destruct s.
Qed.

Lemma pos_leb_refl (x : float) : (0 <? x) = true -> (x <=? x) = true.
Proof.
  rewrite ltb_spec, leb_spec. unfold SFltb, SFleb. intros H.
  rewrite SFcompare_refl; [reflexivity|].
  intros E. rewrite E in H. discriminate.
Qed.


(** ** Rounding to nearest even is monotone *)

Local Open Scope Z_scope.

(** *** Binary digits *)

Lemma digits2_size p : digits2_pos p = Pos.size p.
Proof. induction p; cbn; congruence. Qed.

Lemma Zdigits2_bounds m :
  0 < m -> 2 ^ (Zdigits2 m - 1) <= m < 2 ^ Zdigits2 m.
Proof.
  destruct m as [|p|p]; try lia. intros _. cbn [Zdigits2]. rewrite digits2_size.
  pose proof (Pos.size_gt p) as Hgt. pose proof (Pos.size_le p) as Hle.
  assert (E : Z.pos (Pos.size p) = Z.succ (Z.pos (Pos.size p) - 1)) by lia.
  split.
  - apply Pos2Z.pos_le_pos in Hle. rewrite Pos2Z.inj_pow in Hle.
    rewrite E, Z.pow_succ_r in Hle by lia. lia.
  - apply Pos2Z.pos_lt_pos in Hgt. now rewrite Pos2Z.inj_pow in Hgt.
Qed.

Lemma Zdigits2_nonneg m : 0 <= Zdigits2 m.
Proof. destruct m; cbn; lia. Qed.

Lemma Zdigits2_unique m d :
  0 < m -> 2 ^ (d - 1) <= m < 2 ^ d -> Zdigits2 m = d.
Proof.
  intros Hm [Hlo Hhi]. pose proof (Zdigits2_bounds m Hm) as [Hlo' Hhi'].
  pose proof (Zdigits2_nonneg m) as Hn.
  assert (0 < d).
  { destruct (Z.ltb_spec 0 d) as [?|Hd]; [lia|]. exfalso.
    assert (2 ^ d <= 1).
    { destruct (Z.eq_dec d 0) as [->|]; [cbn; lia|rewrite Z.pow_neg_r by lia; lia]. }
    lia. }
  assert (0 < Zdigits2 m). { destruct m; cbn in *; lia. }
  assert (Zdigits2 m - 1 < d) by (apply (Z.pow_lt_mono_r_iff 2); lia).
  assert (d - 1 < Zdigits2 m) by (apply (Z.pow_lt_mono_r_iff 2); lia).
  lia.
Qed.

(** *** Shifting and rounding act on keys *)

Lemma key_shr_1 mrs :
  0 <= shr_m mrs ->
  key_of (shr_1 mrs) = half_key (key_of mrs) /\ 0 <= shr_m (shr_1 mrs).
Proof.
  destruct mrs as [m r s]. cbn [shr_m]. intros Hm. unfold half_key, key_of.
  destruct m as [|p|p]; [| |lia];
    [|destruct p]; destruct r, s; cbn [shr_1 shr_m shr_r shr_s orb];
    (split; [|lia]);
    match goal with |- context [?k mod 4 =? 0] => destruct (Z.eqb_spec (k mod 4) 0) end;
    Z.div_mod_to_equations; lia.
Qed.

Lemma iter_pos_nat {A} (f : A -> A) p x :
  iter_pos f p x = Nat.iter (Pos.to_nat p) f x.
Proof.
  revert x. induction p as [p IH|p IH|]; intros x; cbn [iter_pos].
  - rewrite !IH, Pos2Nat.inj_xI.
    replace (S (2 * Pos.to_nat p)) with (Pos.to_nat p + (Pos.to_nat p + 1))%nat by lia.
    now rewrite !Nat.iter_add.
  - rewrite !IH, Pos2Nat.inj_xO.
    replace (2 * Pos.to_nat p)%nat with (Pos.to_nat p + Pos.to_nat p)%nat by lia.
    now rewrite Nat.iter_add.
  - reflexivity.
Qed.

Lemma key_iter_shr n mrs :
  0 <= shr_m mrs ->
  key_of (Nat.iter n shr_1 mrs) = Nat.iter n half_key (key_of mrs)
  /\ 0 <= shr_m (Nat.iter n shr_1 mrs).
Proof.
  intros Hm. induction n as [|n [IHk IHm]]; [now split|].
  rewrite !Nat.iter_succ.
  destruct (key_shr_1 _ IHm) as [E1 E2]. now rewrite E1, IHk.
Qed.

(** *** Keys of exact values *)

Lemma div_mod_unique a b q r :
  0 <= r < b -> a = b * q + r -> a / b = q /\ a mod b = r.
Proof.
  intros Hr E. split; symmetry.
  - apply (Z.div_unique a b q r); auto.
  - apply (Z.mod_unique a b q r); auto.
Qed.

Lemma half_key_Key N D :
  0 <= N -> 0 < D -> half_key (Key N D) = Key N (2 * D).
Proof.
  intros HN HD. unfold Key.
  rewrite (Z.mul_comm 2 D), <- Z.div_div by lia.
  rewrite Z.rem_mul_r by lia.
  set (a := 2 * N / D). set (b := (2 * N) mod D).
  assert (Hb : 0 <= b < D) by (apply Z.mod_pos_bound; lia).
  assert (Ha : 0 <= a) by (apply Z.div_pos; lia).
  assert (Ha2 : a mod 2 = 0 \/ a mod 2 = 1) by (pose proof (Z.mod_pos_bound a 2); lia).
  unfold half_key.
  destruct (Z.eqb_spec b 0) as [Eb|Eb];
  destruct Ha2 as [E2|E2]; rewrite E2;
  repeat match goal with |- context [?k =? 0] => destruct (Z.eqb_spec k 0) end;
  Z.div_mod_to_equations; nia.
Qed.

Lemma iter_half_key n N D :
  0 <= N -> 0 < D ->
  Nat.iter n half_key (Key N D) = Key N (D * 2 ^ Z.of_nat n).
Proof.
  intros HN HD. induction n as [|n IH].
  - cbn. now rewrite Z.mul_1_r.
  - rewrite Nat.iter_succ, IH, half_key_Key by (try apply Z.mul_pos_pos; lia).
    f_equal. rewrite Nat2Z.inj_succ, Z.pow_succ_r by lia. ring.
Qed.

Lemma key_of_loc N D :
  0 <= N -> 0 < D ->
  key_of (shr_record_of_loc (N / D) (loc_of N D)) = Key N D.
Proof.
  intros HN HD. unfold loc_of, Key.
  pose proof (Z.div_mod N D ltac:(lia)) as E.
  pose proof (Z.mod_pos_bound N D HD) as Hr.
  set (q := N / D) in *. set (r := N mod D) in *.
  destruct (Z.eqb_spec r 0) as [Er|Er].
  - destruct (div_mod_unique (2 * N) D (2 * q) 0) as [-> ->]; [lia|lia|].
    unfold key_of; cbn [shr_record_of_loc shr_m shr_r shr_s].
    change (0 =? 0) with true; cbv iota; lia.
  - destruct (Z.compare_spec (2 * r) D) as [Ec|Ec|Ec].
    + destruct (div_mod_unique (2 * N) D (2 * q + 1) 0) as [-> ->]; [lia|lia|].
      unfold key_of; cbn [shr_record_of_loc shr_m shr_r shr_s].
      change (0 =? 0) with true; cbv iota; lia.
    + destruct (div_mod_unique (2 * N) D (2 * q) (2 * r)) as [-> ->]; [lia|lia|].
      destruct (Z.eqb_spec (2 * r) 0); [lia|].
      unfold key_of; cbn [shr_record_of_loc shr_m shr_r shr_s]. lia.
    + destruct (div_mod_unique (2 * N) D (2 * q + 1) (2 * r - D)) as [-> ->]; [lia|lia|].
      destruct (Z.eqb_spec (2 * r - D) 0); [lia|].
      unfold key_of; cbn [shr_record_of_loc shr_m shr_r shr_s]. lia.
Qed.

Lemma Key_mono N1 D1 N2 D2 :
  0 <= N1 -> 0 < D1 -> 0 < D2 -> N1 * D2 <= N2 * D1 ->
  Key N1 D1 <= Key N2 D2.
Proof.
  intros HN HD1 HD2 H. unfold Key.
  pose proof (Z.div_mod (2 * N1) D1 ltac:(lia)) as E1.
  pose proof (Z.mod_pos_bound (2 * N1) D1 HD1) as Hr1.
  pose proof (Z.div_mod (2 * N2) D2 ltac:(lia)) as E2.
  pose proof (Z.mod_pos_bound (2 * N2) D2 HD2) as Hr2.
  set (a1 := 2 * N1 / D1) in *. set (b1 := (2 * N1) mod D1) in *.
  set (a2 := 2 * N2 / D2) in *. set (b2 := (2 * N2) mod D2) in *.
  assert (Hle : a1 <= a2).
  { apply Z.div_le_lower_bound; [lia|]. nia. }
  destruct (Z.eqb_spec b1 0), (Z.eqb_spec b2 0); try lia.
  destruct (Z.eq_dec a1 a2); [|lia]. exfalso. nia.
Qed.

Lemma Key_nonneg N D : 0 <= N -> 0 < D -> 0 <= Key N D.
Proof.
  intros. unfold Key. assert (0 <= 2 * N / D) by (apply Z.div_pos; lia).
  destruct (_ =? 0); lia.
Qed.

Lemma Key_floor N D : 0 <= N -> 0 < D -> Key N D / 4 = N / D.
Proof.
  intros HN HD. unfold Key.
  pose proof (Z.div_mod N D ltac:(lia)) as E.
  pose proof (Z.mod_pos_bound N D HD) as Hr.
  pose proof (Z.div_mod (2 * N) D ltac:(lia)) as E2.
  pose proof (Z.mod_pos_bound (2 * N) D HD) as Hr2.
  set (q := N / D) in *. set (r := N mod D) in *.
  set (a := 2 * N / D) in *. set (b := (2 * N) mod D) in *.
  assert (a = 2 * q \/ a = 2 * q + 1) by nia.
  destruct (b =? 0); Z.div_mod_to_equations; lia.
Qed.

Lemma rne_key_spec mrs :
  0 <= shr_m mrs ->
  round_nearest_even (shr_m mrs) (loc_of_shr_record mrs) = rne_key (key_of mrs).
Proof.
  destruct mrs as [m r s]. cbn [shr_m]. intros Hm. unfold rne_key, key_of.
  cbn [shr_m shr_r shr_s].
  destruct r, s; cbn [loc_of_shr_record round_nearest_even].
  - replace ((4 * m + 2 + 1) mod 4) with 3 by (Z.div_mod_to_equations; lia).
    replace ((4 * m + 2 + 1) / 4) with m by (Z.div_mod_to_equations; lia).
    reflexivity.
  - replace ((4 * m + 2 + 0) mod 4) with 2 by (Z.div_mod_to_equations; lia).
    replace ((4 * m + 2 + 0) / 4) with m by (Z.div_mod_to_equations; lia).
    reflexivity.
  - replace ((4 * m + 0 + 1) mod 4) with 1 by (Z.div_mod_to_equations; lia).
    replace ((4 * m + 0 + 1) / 4) with m by (Z.div_mod_to_equations; lia).
    reflexivity.
  - replace ((4 * m + 0 + 0) mod 4) with 0 by (Z.div_mod_to_equations; lia).
    replace ((4 * m + 0 + 0) / 4) with m by (Z.div_mod_to_equations; lia).
    reflexivity.
Qed.

Lemma rne_key_bounds k : 0 <= k -> k / 4 <= rne_key k <= k / 4 + 1.
Proof.
  intros Hk. unfold rne_key.
  destruct (_ <? 2); [lia|]. destruct (_ =? 2); [|lia]. destruct (Z.even _); lia.
Qed.

Lemma rne_key_mono k1 k2 : 0 <= k1 <= k2 -> rne_key k1 <= rne_key k2.
Proof.
  intros Hk.
  destruct (Z.eq_dec (k1 / 4) (k2 / 4)) as [E|NE].
  - unfold rne_key. rewrite E.
    destruct (Z.ltb_spec (k1 mod 4) 2), (Z.ltb_spec (k2 mod 4) 2);
    destruct (Z.eqb_spec (k1 mod 4) 2), (Z.eqb_spec (k2 mod 4) 2);
    destruct (Z.even (k2 / 4)); try lia;
    Z.div_mod_to_equations; lia.
  - pose proof (rne_key_bounds k1 ltac:(lia)). pose proof (rne_key_bounds k2 ltac:(lia)).
    assert (k1 / 4 <= k2 / 4) by (apply Z.div_le_mono; lia). lia.
Qed.

(** *** What [binary_round_aux] computes *)

Lemma fexp_eq e : fexp prec emax e = Z.max (e - 53) (-1074).
Proof. reflexivity. Qed.

Lemma shr_key mrs e n :
  0 <= shr_m mrs -> 0 <= n ->
  exists mrs',
    shr mrs e n = (mrs', e + n)
    /\ key_of mrs' = Nat.iter (Z.to_nat n) half_key (key_of mrs)
    /\ 0 <= shr_m mrs'.
Proof.
  intros Hm Hn. destruct n as [|p|p]; [| |lia].
  - exists mrs. cbn [shr]. rewrite Z.add_0_r. auto.
  - exists (iter_pos shr_1 p mrs). cbn [shr]. split; [reflexivity|].
    rewrite iter_pos_nat, Z2Nat.inj_pos. now apply key_iter_shr.
Qed.

(** The rounding of [N / D * 2 ^ e] is the key of the value at its target
    exponent, rounded to nearest even. *)
Lemma rnd_spec N D e :
  0 <= N -> 0 < D -> e <= target N D e ->
  rnd N D e
  = finish (rne_key (Key N (D * 2 ^ (target N D e - e)))) (target N D e).
Proof.
  intros HN HD He. unfold rnd, binary_round_aux, shr_fexp.
  fold (target N D e). set (t := target N D e) in *.
  set (q := N / D).
  assert (Hq : 0 <= q) by (apply Z.div_pos; lia).
  assert (Ht : -1074 <= t /\ Zdigits2 q + e - 53 <= t).
  { unfold t, target. fold q. rewrite fexp_eq. lia. }
  destruct (shr_key (shr_record_of_loc q (loc_of N D)) e (t - e))
    as (mrs & -> & Hk & Hm); [destruct (loc_of N D) as [|[]]; cbn; lia|lia|].
  replace (e + (t - e)) with t by lia.
  rewrite rne_key_spec by assumption. rewrite Hk. unfold q.
  rewrite key_of_loc, iter_half_key, Z2Nat.id by lia.
  set (K := Key N (D * 2 ^ (t - e))).
  assert (HP : 0 < D * 2 ^ (t - e)) by (apply Z.mul_pos_pos; [lia|apply Z.pow_pos_nonneg; lia]).
  assert (HK : 0 <= K) by (apply Key_nonneg; lia).
  pose proof (rne_key_bounds K HK) as [Hlo Hhi].
  assert (Hfl : K / 4 < 2 ^ 53).
  { unfold K. rewrite Key_floor by lia. rewrite <- Z.div_div by (try apply Z.pow_pos_nonneg; lia).
    fold q. apply Z.div_lt_upper_bound; [apply Z.pow_pos_nonneg; lia|].
    rewrite <- Z.pow_add_r by lia.
    destruct (Z.eq_dec q 0) as [->|Hq0]; [apply Z.pow_pos_nonneg; lia|].
    pose proof (Zdigits2_bounds q ltac:(lia)) as [_ Hd].
    eapply Z.lt_le_trans; [exact Hd|]. apply Z.pow_le_mono_r; lia. }
  assert (H0 : 0 <= K / 4) by (apply Z.div_pos; lia).
  set (m2 := rne_key K) in *.
  unfold finish.
  destruct (Z.eqb_spec m2 0) as [E0|E0].
  - rewrite E0. cbn [Zdigits2]. rewrite fexp_eq.
    assert (Hn : Z.max (0 + t - 53) (-1074) - t <= 0) by lia.
    destruct (Z.max (0 + t - 53) (-1074) - t) eqn:En; try lia; reflexivity.
  - destruct (Z.eqb_spec m2 (2 ^ 53)) as [E1|E1].
    + rewrite E1. change (Zdigits2 (2 ^ 53)) with 54. rewrite fexp_eq.
      replace (Z.max (54 + t - 53) (-1074) - t) with 1 by lia.
      cbn [shr shr_record_of_loc iter_pos]. reflexivity.
    + assert (Hd2 : Zdigits2 m2 <= 53).
      { pose proof (Zdigits2_bounds m2 ltac:(lia)) as [Hd _].
        assert (Zdigits2 m2 - 1 < 53); [|lia].
        apply (Z.pow_lt_mono_r_iff 2); lia. }
      rewrite fexp_eq.
      assert (Hn : Z.max (Zdigits2 m2 + t - 53) (-1074) - t <= 0) by lia.
      destruct (Z.max (Zdigits2 m2 + t - 53) (-1074) - t) eqn:En; try lia;
        cbn [shr shr_record_of_loc shr_m];
        destruct m2 as [|pm|pm]; try lia; reflexivity.
Qed.

(** *** Ordered values have ordered roundings *)

Lemma pow2_pos k : 0 <= k -> 0 < 2 ^ k.
Proof. intros. apply Z.pow_pos_nonneg; lia. Qed.

(** A value of at least [2 ^ a] that is below a value under [2 ^ b] has
    [a < b]: ordered values lie in ordered binades. *)
Lemma binade a b N1 D1 e1 N2 D2 e2 L :
  0 < D1 -> 0 < D2 -> L <= e1 -> L <= e2 -> 0 <= a -> 0 <= b ->
  2 ^ a * D1 <= N1 -> N2 < 2 ^ b * D2 ->
  N1 * D2 * 2 ^ (e1 - L) <= N2 * D1 * 2 ^ (e2 - L) ->
  a + e1 < b + e2.
Proof.
  intros HD1 HD2 HL1 HL2 Ha Hb H1 H2 H.
  assert (Hp : 2 ^ (a + (e1 - L)) < 2 ^ (b + (e2 - L))).
  { rewrite !Z.pow_add_r by lia.
    pose proof (pow2_pos a Ha). pose proof (pow2_pos b Hb).
    pose proof (pow2_pos (e1 - L) ltac:(lia)). pose proof (pow2_pos (e2 - L) ltac:(lia)).
    set (A := 2 ^ a) in *. set (B := 2 ^ b) in *.
    set (P1 := 2 ^ (e1 - L)) in *. set (P2 := 2 ^ (e2 - L)) in *.
    destruct (Z.lt_ge_cases (A * P1) (B * P2)) as [|Hge]; [assumption|exfalso].
    assert (A * D1 * (D2 * P1) <= N1 * (D2 * P1)) by (apply Z.mul_le_mono_nonneg_r; nia).
    assert (N2 * (D1 * P2) < B * D2 * (D1 * P2)) by (apply Z.mul_lt_mono_pos_r; nia).
    assert (B * P2 * (D1 * D2) <= A * P1 * (D1 * D2)) by (apply Z.mul_le_mono_nonneg_r; nia).
    nia. }
  apply Z.pow_lt_mono_r_iff in Hp; lia.
Qed.

Lemma floor_ge_pow N D d :
  0 < D -> 0 < N / D -> d = Zdigits2 (N / D) -> 2 ^ (d - 1) * D <= N.
Proof.
  intros HD Hq ->. pose proof (Zdigits2_bounds _ Hq) as [Hlo _].
  pose proof (Z.mul_div_le N D HD). nia.
Qed.

Lemma floor_lt_pow N D :
  0 <= N -> 0 < D -> N < 2 ^ Zdigits2 (N / D) * D.
Proof.
  intros HN HD.
  pose proof (Z.div_mod N D ltac:(lia)) as E.
  pose proof (Z.mod_pos_bound N D HD) as Hr.
  assert (Hq : 0 <= N / D) by (apply Z.div_pos; lia).
  destruct (Z.eq_dec (N / D) 0) as [E0|E0].
  - rewrite E0 in *. cbn [Zdigits2]. rewrite Z.pow_0_r. lia.
  - pose proof (Zdigits2_bounds (N / D) ltac:(lia)) as [_ Hhi]. nia.
Qed.

Lemma target_mono N1 D1 e1 N2 D2 e2 :
  0 <= N1 -> 0 <= N2 -> 0 < D1 -> 0 < D2 ->
  e1 <= target N1 D1 e1 -> e2 <= target N2 D2 e2 ->
  vle N1 D1 e1 N2 D2 e2 ->
  target N1 D1 e1 <= target N2 D2 e2.
Proof.
  intros HN1 HN2 HD1 HD2 He1 He2 (L & HL1 & HL2 & H).
  unfold target in *. rewrite !fexp_eq in *.
  assert (Hq1 : 0 <= N1 / D1) by (apply Z.div_pos; lia).
  destruct (Z.eq_dec (N1 / D1) 0) as [E1|E1].
  - rewrite E1 in *. cbn [Zdigits2] in *. lia.
  - pose proof (floor_ge_pow N1 D1 _ HD1 ltac:(lia) eq_refl) as Hlo.
    pose proof (floor_lt_pow N2 D2 HN2 HD2) as Hhi.
    pose proof (Zdigits2_nonneg (N2 / D2)).
    assert (0 < Zdigits2 (N1 / D1)) by (destruct (N1 / D1); cbn in *; lia).
    pose proof (binade (Zdigits2 (N1 / D1) - 1) (Zdigits2 (N2 / D2))
                  N1 D1 e1 N2 D2 e2 L HD1 HD2 HL1 HL2 ltac:(lia) ltac:(lia) Hlo Hhi H).
    lia.
Qed.

Lemma Key_vle N1 D1 e1 N2 D2 e2 t :
  0 <= N1 -> 0 <= N2 -> 0 < D1 -> 0 < D2 -> e1 <= t -> e2 <= t ->
  vle N1 D1 e1 N2 D2 e2 ->
  Key N1 (D1 * 2 ^ (t - e1)) <= Key N2 (D2 * 2 ^ (t - e2)).
Proof.
  intros HN1 HN2 HD1 HD2 He1 He2 (L & HL1 & HL2 & H).
  pose proof (pow2_pos (t - e1) ltac:(lia)) as Hc.
  pose proof (pow2_pos (t - e2) ltac:(lia)) as Hd.
  pose proof (pow2_pos (e1 - L) ltac:(lia)) as Ha.
  pose proof (pow2_pos (e2 - L) ltac:(lia)) as Hb.
  assert (Eac : 2 ^ (e1 - L) * 2 ^ (t - e1) = 2 ^ (t - L))
    by (rewrite <- Z.pow_add_r by lia; f_equal; lia).
  assert (Ebd : 2 ^ (e2 - L) * 2 ^ (t - e2) = 2 ^ (t - L))
    by (rewrite <- Z.pow_add_r by lia; f_equal; lia).
  pose proof (pow2_pos (t - L) ltac:(lia)) as HP.
  set (a := 2 ^ (e1 - L)) in *. set (b := 2 ^ (e2 - L)) in *.
  set (c := 2 ^ (t - e1)) in *. set (d := 2 ^ (t - e2)) in *.
  set (P := 2 ^ (t - L)) in *.
  apply Key_mono; try nia.
  apply (Z.mul_le_mono_pos_r _ _ P HP).
  replace (N1 * (D2 * d) * P) with (N1 * D2 * a * (c * d)) by (rewrite <- Eac; ring).
  replace (N2 * (D1 * c) * P) with (N2 * D1 * b * (c * d)) by (rewrite <- Ebd; ring).
  apply Z.mul_le_mono_nonneg_r; nia.
Qed.

Lemma SFleb_finite m1 e1 m2 e2 :
  SFleb (S754_finite false m1 e1) (S754_finite false m2 e2)
  = (e1 <? e2) || ((e1 =? e2) && (Z.pos m1 <=? Z.pos m2)).
Proof.
  unfold SFleb. cbn [SFcompare].
  destruct (Z.compare_spec e1 e2) as [E|E|E].
  - subst. rewrite Z.ltb_irrefl, Z.eqb_refl. cbn [orb andb].
    fold (Pos.compare m1 m2). unfold Z.leb. cbn [Z.compare].
    now destruct (m1 ?= m2)%positive.
  - destruct (Z.ltb_spec e1 e2); [reflexivity|lia].
  - destruct (Z.ltb_spec e1 e2); [lia|]. destruct (Z.eqb_spec e1 e2); [lia|reflexivity].
Qed.

Lemma finish_le m1 t1 m2 t2 :
  0 <= m1 <= 2 ^ 53 -> 0 <= m2 <= 2 ^ 53 ->
  (t1 < t2 /\ 2 ^ 52 <= m2) \/ (t1 = t2 /\ m1 <= m2) ->
  SFleb (finish m1 t1) (finish m2 t2) = true.
Proof.
  intros H1 H2 H. unfold finish.
  destruct (Z.eqb_spec m1 0), (Z.eqb_spec m2 0),
           (Z.eqb_spec m1 (2 ^ 53)), (Z.eqb_spec m2 (2 ^ 53)),
           (Z.leb_spec (t1 + 1) 971), (Z.leb_spec (t2 + 1) 971),
           (Z.leb_spec t1 971), (Z.leb_spec t2 971);
    try reflexivity; try (exfalso; lia);
    rewrite ?SFleb_finite; try reflexivity;
    rewrite ?Z2Pos.id by lia;
    repeat match goal with
    | |- context [?a <? ?b] => destruct (Z.ltb_spec a b)
    | |- context [?a =? ?b] => destruct (Z.eqb_spec a b)
    | |- context [?a <=? ?b] => destruct (Z.leb_spec a b)
    end; try reflexivity; exfalso; lia.
Qed.

(** Round-to-nearest-even is monotone. *)
Theorem rnd_mono N1 D1 e1 N2 D2 e2 :
  0 <= N1 -> 0 <= N2 -> 0 < D1 -> 0 < D2 ->
  e1 <= target N1 D1 e1 -> e2 <= target N2 D2 e2 ->
  vle N1 D1 e1 N2 D2 e2 ->
  SFleb (rnd N1 D1 e1) (rnd N2 D2 e2) = true.
Proof.
  intros HN1 HN2 HD1 HD2 He1 He2 Hv.
  pose proof (target_mono _ _ _ _ _ _ HN1 HN2 HD1 HD2 He1 He2 Hv) as Ht.
  rewrite !rnd_spec by assumption.
  set (t1 := target N1 D1 e1) in *. set (t2 := target N2 D2 e2) in *.
  assert (B : forall N D e, 0 <= N -> 0 < D -> e <= target N D e ->
            let K := Key N (D * 2 ^ (target N D e - e)) in
            0 <= rne_key K <= 2 ^ 53
            /\ (-1074 < target N D e -> 2 ^ 52 <= rne_key K)).
  { clear. intros N D e HN HD He K.
    set (t := target N D e) in *. set (q := N / D).
    assert (Hq : 0 <= q) by (apply Z.div_pos; lia).
    assert (Ht : -1074 <= t /\ Zdigits2 q + e - 53 <= t
                 /\ (-1074 < t -> t = Zdigits2 q + e - 53)).
    { unfold t, target. fold q. rewrite fexp_eq. lia. }
    pose proof (pow2_pos (t - e) ltac:(lia)) as Hp.
    assert (HP : 0 < D * 2 ^ (t - e)) by nia.
    assert (HK : 0 <= K) by (apply Key_nonneg; lia).
    pose proof (rne_key_bounds K HK) as [Hlo Hhi].
    assert (Efl : K / 4 = q / 2 ^ (t - e)).
    { unfold K. rewrite Key_floor by lia. now rewrite <- Z.div_div by lia. }
    assert (Hfl : K / 4 < 2 ^ 53).
    { rewrite Efl. apply Z.div_lt_upper_bound; [lia|].
      rewrite <- Z.pow_add_r by lia.
      destruct (Z.eq_dec q 0) as [->|Hq0]; [apply pow2_pos; lia|].
      pose proof (Zdigits2_bounds q ltac:(lia)) as [_ Hd].
      eapply Z.lt_le_trans; [exact Hd|]. apply Z.pow_le_mono_r; lia. }
    assert (H0 : 0 <= K / 4) by (apply Z.div_pos; lia).
    split; [lia|]. intros Hn. destruct Ht as (_ & _ & Et). specialize (Et Hn).
    assert (Hq0 : 0 < q).
    { destruct (Z.eq_dec q 0) as [E|]; [|lia]. rewrite E in Et. cbn in Et. lia. }
    pose proof (Zdigits2_bounds q Hq0) as [Hd _].
    assert (2 ^ 52 <= K / 4); [|lia].
    rewrite Efl. apply Z.div_le_lower_bound; [lia|].
    rewrite <- Z.pow_add_r by lia.
    replace (t - e + 52) with (Zdigits2 q - 1) by lia. exact Hd. }
  destruct (B N1 D1 e1 HN1 HD1 He1) as [B1 _].
  destruct (B N2 D2 e2 HN2 HD2 He2) as [B2 B2'].
  fold t1 in B1. fold t2 in B2, B2'.
  apply finish_le; try assumption.
  destruct (Z.eq_dec t1 t2) as [E|NE].
  - right. split; [assumption|]. rewrite E.
    apply rne_key_mono. split.
    + apply Key_nonneg; [lia|]. pose proof (pow2_pos (t2 - e1) ltac:(lia)). nia.
    + apply Key_vle; try assumption; lia.
  - left. split; [lia|]. apply B2'.
    assert (-1074 <= t1) by (unfold t1, target; rewrite fexp_eq; lia). lia.
Qed.

(** *** Canonical floats and their values *)

Lemma vle_at N1 D1 e1 N2 D2 e2 L :
  vle N1 D1 e1 N2 D2 e2 -> L <= e1 -> L <= e2 ->
  N1 * D2 * 2 ^ (e1 - L) <= N2 * D1 * 2 ^ (e2 - L).
Proof.
  intros (L0 & H1 & H2 & H) HL1 HL2.
  set (M := Z.min L L0).
  assert (HM : forall e K, M <= K <= e -> 2 ^ (e - M) = 2 ^ (e - K) * 2 ^ (K - M)).
  { intros e K HK. rewrite <- Z.pow_add_r by lia. f_equal. lia. }
  assert (HlM : N1 * D2 * 2 ^ (e1 - M) <= N2 * D1 * 2 ^ (e2 - M)).
  { rewrite (HM e1 L0), (HM e2 L0) by lia. rewrite !Z.mul_assoc.
    apply Z.mul_le_mono_nonneg_r; [|assumption].
    pose proof (pow2_pos (L0 - M) ltac:(lia)). lia. }
  rewrite (HM e1 L), (HM e2 L), !Z.mul_assoc in HlM by lia.
  apply Z.mul_le_mono_pos_r in HlM; [assumption|apply pow2_pos; lia].
Qed.

Lemma bounded_facts m e :
  bounded prec emax m e = true ->
  Zdigits2 (Z.pos m) <= 53 /\ -1074 <= e <= 971
  /\ (-1074 < e -> Zdigits2 (Z.pos m) = 53)
  /\ fexp prec emax (Zdigits2 (Z.pos m) + e) = e.
Proof.
  unfold bounded, canonical_mantissa. intros H.
  apply andb_prop in H as [H1 H2].
  apply Z.eqb_eq in H1. apply Z.leb_le in H2.
  change (Z.pos (digits2_pos m)) with (Zdigits2 (Z.pos m)) in H1.
  change (emax - prec) with 971 in H2.
  pose proof H1 as H1'. rewrite fexp_eq in H1'. lia.
Qed.

Lemma Key_int m : 0 <= m -> Key m 1 = 4 * m.
Proof.
  intros. unfold Key. rewrite Z.div_1_r, Z.mod_1_r.
  change (0 =? 0) with true. cbv iota. lia.
Qed.

Lemma rne_key_int m : 0 <= m -> rne_key (4 * m) = m.
Proof.
  intros. unfold rne_key.
  replace ((4 * m) mod 4) with 0 by (Z.div_mod_to_equations; lia).
  replace ((4 * m) / 4) with m by (Z.div_mod_to_equations; lia).
  reflexivity.
Qed.

Lemma target_int m e : target m 1 e = fexp prec emax (Zdigits2 m + e).
Proof. unfold target. now rewrite Z.div_1_r. Qed.

(** A canonical float is the rounding of its own value. *)
Lemma rnd_canonical m e :
  bounded prec emax m e = true -> repr (S754_finite false m e) (Z.pos m) 1 e.
Proof.
  intros Hb. destruct (bounded_facts m e Hb) as (Hd & He & _ & Hc).
  assert (Ht : target (Z.pos m) 1 e = e) by (now rewrite target_int).
  repeat split; try lia.
  rewrite rnd_spec, Ht by lia.
  rewrite Z.sub_diag, Z.pow_0_r, Z.mul_1_r, Key_int, rne_key_int by lia.
  unfold finish.
  pose proof (Zdigits2_bounds (Z.pos m) ltac:(lia)) as [_ Hhi].
  assert (Z.pos m < 2 ^ 53).
  { eapply Z.lt_le_trans; [exact Hhi|]. apply Z.pow_le_mono_r; lia. }
  destruct (Z.eqb_spec (Z.pos m) 0); [lia|].
  destruct (Z.eqb_spec (Z.pos m) (2 ^ 53)); [lia|].
  destruct (Z.leb_spec e 971); [|lia]. reflexivity.
Qed.

Lemma rnd_nonneg N D e :
  0 <= N -> 0 < D -> e <= target N D e ->
  SFleb (S754_zero false) (rnd N D e) = true.
Proof.
  intros HN HD He. rewrite rnd_spec by assumption. unfold finish.
  repeat match goal with |- context [if ?b then _ else _] => destruct b end;
    reflexivity.
Qed.

Lemma repr_mono f1 N1 D1 e1 f2 N2 D2 e2 :
  repr f1 N1 D1 e1 -> repr f2 N2 D2 e2 -> vle N1 D1 e1 N2 D2 e2 ->
  SFleb f1 f2 = true.
Proof.
  intros (-> & ? & ? & ?) (-> & ? & ? & ?) Hv. now apply rnd_mono.
Qed.

(** Order of canonical positive floats is order of their values. *)
Lemma SFleb_vle m1 e1 m2 e2 :
  bounded prec emax m1 e1 = true -> bounded prec emax m2 e2 = true ->
  SFleb (S754_finite false m1 e1) (S754_finite false m2 e2) = true ->
  vle (Z.pos m1) 1 e1 (Z.pos m2) 1 e2.
Proof.
  intros Hb1 Hb2 H.
  destruct (bounded_facts _ _ Hb1) as (Hd1 & He1 & _ & _).
  destruct (bounded_facts _ _ Hb2) as (Hd2 & He2 & Hn2 & _).
  rewrite SFleb_finite in H.
  exists e1. rewrite Z.sub_diag, Z.pow_0_r, !Z.mul_1_r.
  destruct (Z.ltb_spec e1 e2) as [Hlt|Hge].
  - split; [lia|]. split; [lia|].
    pose proof (Zdigits2_bounds (Z.pos m1) ltac:(lia)) as [_ Hhi].
    pose proof (Zdigits2_bounds (Z.pos m2) ltac:(lia)) as [Hlo _].
    rewrite Hn2 in Hlo by lia.
    assert (Z.pos m1 < 2 ^ 53).
    { eapply Z.lt_le_trans; [exact Hhi|]. apply Z.pow_le_mono_r; lia. }
    assert (2 ^ 1 <= 2 ^ (e2 - e1)) by (apply Z.pow_le_mono_r; lia).
    change (2 ^ 53) with (2 ^ 52 * 2 ^ 1) in *. change (53 - 1) with 52 in Hlo.
    nia.
  - cbn [orb] in H. apply andb_prop in H as [E H].
    apply Z.eqb_eq in E. apply Z.leb_le in H. subst.
    rewrite Z.sub_diag, Z.pow_0_r. lia.
Qed.

(** *** Multiplication *)

Lemma Zdigits2_mul_ge a b :
  0 < a -> 0 < b -> Zdigits2 a + Zdigits2 b - 1 <= Zdigits2 (a * b).
Proof.
  intros Ha Hb.
  pose proof (Zdigits2_bounds a Ha) as [Ha1 _].
  pose proof (Zdigits2_bounds b Hb) as [Hb1 _].
  pose proof (Zdigits2_bounds (a * b) ltac:(nia)) as [_ Hab].
  assert (0 < Zdigits2 a) by (destruct a; cbn in *; lia).
  assert (0 < Zdigits2 b) by (destruct b; cbn in *; lia).
  pose proof (Zdigits2_nonneg (a * b)).
  assert (Hp : 2 ^ (Zdigits2 a - 1 + (Zdigits2 b - 1)) < 2 ^ Zdigits2 (a * b)).
  { rewrite Z.pow_add_r by lia.
    pose proof (pow2_pos (Zdigits2 a - 1) ltac:(lia)).
    pose proof (pow2_pos (Zdigits2 b - 1) ltac:(lia)). nia. }
  apply Z.pow_lt_mono_r_iff in Hp; lia.
Qed.

Lemma rnd_int N e :
  rnd N 1 e = binary_round_aux prec emax false N e loc_Exact.
Proof. unfold rnd, loc_of. now rewrite Z.div_1_r, Z.mod_1_r. Qed.

Lemma SFmul_repr m1 e1 m2 e2 :
  bounded prec emax m1 e1 = true -> bounded prec emax m2 e2 = true ->
  repr (SFmul prec emax (S754_finite false m1 e1) (S754_finite false m2 e2))
       (Z.pos m1 * Z.pos m2) 1 (e1 + e2).
Proof.
  intros Hb1 Hb2.
  destruct (bounded_facts _ _ Hb1) as (Hd1 & He1 & Hn1 & Hc1).
  destruct (bounded_facts _ _ Hb2) as (Hd2 & He2 & Hn2 & Hc2).
  repeat split; try lia.
  - now rewrite rnd_int.
  - rewrite target_int, fexp_eq. rewrite fexp_eq in Hc1, Hc2.
    pose proof (Zdigits2_mul_ge (Z.pos m1) (Z.pos m2) ltac:(lia) ltac:(lia)).
    assert (0 < Zdigits2 (Z.pos m1)) by (cbn; lia).
    assert (0 < Zdigits2 (Z.pos m2)) by (cbn; lia).
    lia.
Qed.

Lemma vle_mul N1 e1 N2 e2 c ec :
  0 <= c -> vle N1 1 e1 N2 1 e2 -> vle (N1 * c) 1 (e1 + ec) (N2 * c) 1 (e2 + ec).
Proof.
  intros Hc (L & H1 & H2 & H). exists (L + ec).
  split; [lia|]. split; [lia|].
  replace (e1 + ec - (L + ec)) with (e1 - L) by lia.
  replace (e2 + ec - (L + ec)) with (e2 - L) by lia.
  rewrite !Z.mul_1_r in *. nia.
Qed.

(** *** Classification of the floats that are at least zero *)

Lemma nn_cases (x : float) : (0 <=? x)%float = true -> nnf (Prim2SF x).
Proof.
  rewrite leb_spec. pose proof (Prim2SF_valid x) as Hv. unfold SFleb.
  change (Prim2SF 0) with (S754_zero false).
  destruct (Prim2SF x) as [s|s| |s m e]; cbn; auto; try discriminate;
    destruct s; auto; discriminate.
Qed.

Lemma posfin_cases (c : float) :
  (0 <? c)%float = true -> (c <? infinity)%float = true ->
  exists m e, Prim2SF c = S754_finite false m e /\ bounded prec emax m e = true.
Proof.
  rewrite !ltb_spec. pose proof (Prim2SF_valid c) as Hv. unfold SFltb.
  change (Prim2SF 0) with (S754_zero false).
  change (Prim2SF infinity) with (S754_infinity false).
  destruct (Prim2SF c) as [s|s| |s m e]; cbn; try discriminate;
    destruct s; try discriminate. intros _ _. eauto.
Qed.

Lemma rnd_cases N D e :
  0 <= N -> 0 < D -> e <= target N D e ->
  rnd N D e = S754_zero false \/ rnd N D e = S754_infinity false
  \/ exists m e', rnd N D e = S754_finite false m e'.
Proof.
  intros HN HD He. rewrite rnd_spec by assumption. unfold finish.
  repeat match goal with |- context [if ?b then _ else _] => destruct b end; eauto.
Qed.

Lemma repr_le_inf f N D e : repr f N D e -> SFleb f (S754_infinity false) = true.
Proof.
  intros (-> & HN & HD & He).
  destruct (rnd_cases N D e HN HD He) as [->|[->|(m & e' & ->)]]; reflexivity.
Qed.

Lemma repr_nn f N D e : repr f N D e -> SFleb (S754_zero false) f = true.
Proof. intros (-> & HN & HD & He). now apply rnd_nonneg. Qed.

(** Multiplying by a positive finite float is monotone on the floats that
    are at least zero, and stays there. *)
Theorem SFmul_mono x1 x2 mc ec :
  nnf x1 -> nnf x2 -> bounded prec emax mc ec = true ->
  SFleb x1 x2 = true ->
  let c := S754_finite false mc ec in
  SFleb (SFmul prec emax x1 c) (SFmul prec emax x2 c) = true
  /\ SFleb (S754_zero false) (SFmul prec emax x1 c) = true.
Proof.
  intros H1 H2 Hc Hle c.
  destruct x1 as [s1|s1| |s1 m1 e1]; try contradiction;
  destruct x2 as [s2|s2| |s2 m2 e2]; try contradiction;
  try destruct s1; try destruct s2; try contradiction; try discriminate;
  cbn [SFmul xorb c]; split; try reflexivity;
  try (eapply repr_nn, SFmul_repr; eassumption);
  try (eapply repr_le_inf, SFmul_repr; eassumption).
  eapply repr_mono; [now apply SFmul_repr|now apply SFmul_repr|].
  apply vle_mul; [lia|]. now apply SFleb_vle.
Qed.

(** *** Division *)

Lemma new_location_spec D r :
  0 < D -> 0 <= r < D ->
  new_location D r = if r =? 0 then loc_Exact else loc_Inexact (2 * r ?= D).
Proof.
  intros HD Hr. unfold new_location, new_location_even, new_location_odd.
  destruct (Z.even D) eqn:Ev; [reflexivity|].
  destruct (Z.eqb_spec r 0); [reflexivity|]. f_equal.
  assert (Hodd : Z.odd D = true) by (now rewrite <- Z.negb_even, Ev).
  apply Z.odd_spec in Hodd. destruct Hodd as [h Hh].
  destruct (Z.compare_spec (2 * r + 1) D), (Z.compare_spec (2 * r) D);
    try reflexivity; exfalso; lia.
Qed.

Lemma SFdiv_core_eq m1 e1 m2 e2 :
  let e' := Z.min (fexp prec emax (Zdigits2 (Z.pos m1) + e1 - (Zdigits2 (Z.pos m2) + e2)))
                  (e1 - e2) in
  let m' := Z.pos m1 * 2 ^ (e1 - e2 - e') in
  SFdiv_core_binary prec emax (Z.pos m1) e1 (Z.pos m2) e2
  = (m' / Z.pos m2, e', new_location (Z.pos m2) (m' mod Z.pos m2)).
Proof.
  intros e' m'. unfold SFdiv_core_binary. fold e'.
  assert (Hs : 0 <= e1 - e2 - e') by (unfold e'; lia).
  set (m'' := match e1 - e2 - e' with
              | 0 => Z.pos m1
              | Z.pos _ => Z.shiftl (Z.pos m1) (e1 - e2 - e')
              | Z.neg _ => 0
              end).
  assert (E : m'' = m').
  { unfold m'', m'. destruct (e1 - e2 - e') eqn:Es;
      rewrite ?Z.shiftl_mul_pow2 by lia; lia. }
  rewrite E. unfold Z.div, Z.modulo.
  now destruct (Z.div_eucl m' (Z.pos m2)).
Qed.

Lemma Zdigits2_ge k m : 0 <= k -> 2 ^ k <= m -> k + 1 <= Zdigits2 m.
Proof.
  intros Hk H. pose proof (pow2_pos k Hk).
  pose proof (Zdigits2_bounds m ltac:(lia)) as [_ Hhi].
  pose proof (Zdigits2_nonneg m).
  assert (k < Zdigits2 m); [|lia].
  apply (Z.pow_lt_mono_r_iff 2); lia.
Qed.

Lemma SFdiv_repr m1 e1 m2 e2 :
  bounded prec emax m1 e1 = true -> bounded prec emax m2 e2 = true ->
  exists s, 0 <= s
    /\ repr (SFdiv prec emax (S754_finite false m1 e1) (S754_finite false m2 e2))
            (Z.pos m1 * 2 ^ s) (Z.pos m2) (e1 - e2 - s).
Proof.
  intros Hb1 Hb2.
  destruct (bounded_facts _ _ Hb1) as (Hd1 & He1 & Hn1 & Hc1).
  destruct (bounded_facts _ _ Hb2) as (Hd2 & He2 & Hn2 & Hc2).
  cbn [SFdiv xorb]. rewrite SFdiv_core_eq.
  set (d1 := Zdigits2 (Z.pos m1)) in *. set (d2 := Zdigits2 (Z.pos m2)) in *.
  set (X := d1 + e1 - (d2 + e2)).
  set (e' := Z.min (fexp prec emax X) (e1 - e2)).
  set (s := e1 - e2 - e').
  assert (Hs : 0 <= s) by (unfold s, e'; lia).
  exists s. split; [assumption|].
  pose proof (pow2_pos s Hs) as Hps.
  set (m' := Z.pos m1 * 2 ^ s) in *.
  assert (Hm' : 0 < m') by (unfold m'; nia).
  replace (e1 - e2 - s) with e' by (unfold s; lia).
  split; [|split; [lia|split; [lia|]]].
  - unfold rnd, loc_of. rewrite new_location_spec; [reflexivity|lia|].
    apply Z.mod_pos_bound; lia.
  - unfold target. rewrite fexp_eq.
    assert (He' : e' <= Z.max (X - 53) (-1074)) by (unfold e'; rewrite fexp_eq; lia).
    pose proof (Zdigits2_nonneg (m' / Z.pos m2)) as Hdq.
    destruct (Z.le_gt_cases 0 (d1 + s - 1 - d2)) as [Hk|Hk].
    + assert (Hq : 2 ^ (d1 + s - 1 - d2) <= m' / Z.pos m2).
      { apply Z.div_le_lower_bound; [lia|].
        pose proof (Zdigits2_bounds (Z.pos m1) ltac:(lia)) as [Hlo1 _].
        pose proof (Zdigits2_bounds (Z.pos m2) ltac:(lia)) as [_ Hhi2].
        fold d1 in Hlo1. fold d2 in Hhi2.
        assert (0 < d1) by (unfold d1; cbn; lia).
        assert (0 < d2) by (unfold d2; cbn; lia).
        assert (E : 2 ^ (d1 - 1) * 2 ^ s = 2 ^ d2 * 2 ^ (d1 + s - 1 - d2)).
        { rewrite <- !Z.pow_add_r by lia. f_equal. lia. }
        pose proof (pow2_pos (d1 + s - 1 - d2) Hk).
        unfold m'. nia. }
      pose proof (Zdigits2_ge _ _ Hk Hq). unfold s in *. lia.
    + unfold s in *. lia.
Qed.

Lemma vle_div N1 e1 N2 e2 s1 s2 D ed :
  0 <= s1 -> 0 <= s2 -> 0 < D -> vle N1 1 e1 N2 1 e2 ->
  vle (N1 * 2 ^ s1) D (e1 - ed - s1) (N2 * 2 ^ s2) D (e2 - ed - s2).
Proof.
  intros Hs1 Hs2 HD (L & H1 & H2 & H). exists (L - ed - s1 - s2).
  split; [lia|]. split; [lia|].
  replace (e1 - ed - s1 - (L - ed - s1 - s2)) with (e1 - L + s2) by lia.
  replace (e2 - ed - s2 - (L - ed - s1 - s2)) with (e2 - L + s1) by lia.
  rewrite !Z.pow_add_r by lia. rewrite !Z.mul_1_r in H.
  pose proof (pow2_pos s1 Hs1). pose proof (pow2_pos s2 Hs2).
  pose proof (pow2_pos (e1 - L) ltac:(lia)). pose proof (pow2_pos (e2 - L) ltac:(lia)).
  set (P1 := 2 ^ (e1 - L)) in *. set (P2 := 2 ^ (e2 - L)) in *.
  set (S1 := 2 ^ s1) in *. set (S2 := 2 ^ s2) in *.
  replace (N1 * S1 * D * (P1 * S2)) with (N1 * P1 * (S1 * S2 * D)) by ring.
  replace (N2 * S2 * D * (P2 * S1)) with (N2 * P2 * (S1 * S2 * D)) by ring.
  apply Z.mul_le_mono_nonneg_r; nia.
Qed.

(** So is dividing by a positive finite float. *)
Theorem SFdiv_mono x1 x2 mc ec :
  nnf x1 -> nnf x2 -> bounded prec emax mc ec = true ->
  SFleb x1 x2 = true ->
  let c := S754_finite false mc ec in
  SFleb (SFdiv prec emax x1 c) (SFdiv prec emax x2 c) = true
  /\ SFleb (S754_zero false) (SFdiv prec emax x1 c) = true.
Proof.
  intros H1 H2 Hc Hle c.
  destruct x1 as [s1|s1| |s1 m1 e1]; try contradiction;
  destruct x2 as [s2|s2| |s2 m2 e2]; try contradiction;
  try destruct s1; try destruct s2; try contradiction; try discriminate;
  try (destruct (SFdiv_repr m1 e1 mc ec H1 Hc) as (k1 & Hk1 & R1));
  try (destruct (SFdiv_repr m2 e2 mc ec H2 Hc) as (k2 & Hk2 & R2));
  unfold c; cbn [SFdiv xorb] in *; split; try reflexivity;
  try (eapply repr_nn; eassumption);
  try (eapply repr_le_inf; eassumption).
  eapply repr_mono; [eassumption|eassumption|].
  apply vle_div; try lia. now apply SFleb_vle.
Qed.

(** *** Addition and subtraction *)

Lemma Zdigits2_shift m k :
  0 < m -> 0 <= k -> Zdigits2 (m * 2 ^ k) = Zdigits2 m + k.
Proof.
  intros Hm Hk. pose proof (pow2_pos k Hk).
  pose proof (Zdigits2_bounds m Hm) as [Hlo Hhi].
  assert (0 < Zdigits2 m) by (destruct m; cbn in *; lia).
  apply Zdigits2_unique; [nia|].
  replace (Zdigits2 m + k - 1) with (Zdigits2 m - 1 + k) by lia.
  rewrite !Z.pow_add_r by lia. nia.
Qed.

Lemma iter_xO m d : Z.pos (Pos.iter xO m d) = Z.pos m * 2 ^ Z.pos d.
Proof.
  rewrite <- Z.shiftl_mul_pow2 by lia. cbn [Z.shiftl].
  apply (Pos.iter_swap_gen _ _ Z.pos xO (Z.mul 2)). reflexivity.
Qed.

Lemma shl_align_le mx ex ex' :
  ex' <= ex ->
  shl_align mx ex ex' = (Z.to_pos (Z.pos mx * 2 ^ (ex - ex')), ex').
Proof.
  intros H. unfold shl_align. destruct (ex' - ex) as [|d|d] eqn:E; try lia.
  - replace (ex - ex') with 0 by lia. rewrite Z.pow_0_r, Z.mul_1_r.
    cbn [Z.to_pos]. f_equal. lia.
  - replace (ex - ex') with (Z.pos d) by lia.
    now rewrite <- iter_xO.
Qed.

Lemma shl_align_ge mx ex ex' : ex <= ex' -> shl_align mx ex ex' = (mx, ex).
Proof.
  intros H. unfold shl_align. destruct (ex' - ex) eqn:E; try lia; reflexivity.
Qed.

Lemma binary_round_repr M e :
  exists k, 0 <= k
    /\ repr (binary_round prec emax false M e) (Z.pos M * 2 ^ k) 1 (e - k).
Proof.
  unfold binary_round.
  change (Z.pos (digits2_pos M)) with (Zdigits2 (Z.pos M)).
  set (tgt := fexp prec emax (Zdigits2 (Z.pos M) + e)).
  destruct (Z.le_gt_cases e tgt) as [Hle|Hgt].
  - exists 0. split; [lia|]. rewrite shl_align_ge by assumption.
    rewrite Z.pow_0_r, Z.mul_1_r, Z.sub_0_r.
    repeat split; try lia; [now rewrite rnd_int|]. now rewrite target_int.
  - exists (e - tgt). split; [lia|]. rewrite shl_align_le by lia.
    pose proof (pow2_pos (e - tgt) ltac:(lia)).
    replace (e - (e - tgt)) with tgt by lia.
    repeat split; try nia.
    + rewrite rnd_int. now rewrite Z2Pos.id by nia.
    + rewrite target_int, Zdigits2_shift by lia.
      replace (Zdigits2 (Z.pos M) + (e - tgt) + tgt) with (Zdigits2 (Z.pos M) + e) by lia.
      fold tgt. lia.
Qed.

Lemma SFadd_repr m1 e1 m2 e2 :
  exists N e,
    repr (SFadd prec emax (S754_finite false m1 e1) (S754_finite false m2 e2)) N 1 e
    /\ e <= e1 /\ e <= e2
    /\ N = Z.pos m1 * 2 ^ (e1 - e) + Z.pos m2 * 2 ^ (e2 - e).
Proof.
  cbn [SFadd cond_Zopp]. set (ez := Z.min e1 e2).
  rewrite !shl_align_le by (unfold ez; lia). cbn [fst].
  pose proof (pow2_pos (e1 - ez) ltac:(unfold ez; lia)).
  pose proof (pow2_pos (e2 - ez) ltac:(unfold ez; lia)).
  rewrite !Z2Pos.id by nia.
  set (a := Z.pos m1 * 2 ^ (e1 - ez)). set (b := Z.pos m2 * 2 ^ (e2 - ez)).
  assert (Ha : 0 < a) by (unfold a; nia). assert (Hb : 0 < b) by (unfold b; nia).
  destruct (a + b) as [|M|M] eqn:EM; try lia. cbn [binary_normalize].
  destruct (binary_round_repr M ez) as (k & Hk & R).
  exists (Z.pos M * 2 ^ k), (ez - k). split; [assumption|].
  split; [unfold ez; lia|]. split; [unfold ez; lia|].
  rewrite <- EM. unfold a, b.
  replace (e1 - (ez - k)) with (e1 - ez + k) by lia.
  replace (e2 - (ez - k)) with (e2 - ez + k) by lia.
  rewrite !Z.pow_add_r by (unfold ez; lia). ring.
Qed.

Lemma pow2_split e K L : L <= K <= e -> 2 ^ (e - L) = 2 ^ (e - K) * 2 ^ (K - L).
Proof. intros H. rewrite <- Z.pow_add_r by lia. f_equal. lia. Qed.

Lemma vle_add N1 E1 N2 E2 m1 e1 m2 e2 mz ez :
  vle m1 1 e1 m2 1 e2 -> 0 <= mz ->
  E1 <= e1 -> E1 <= ez -> E2 <= e2 -> E2 <= ez ->
  N1 = m1 * 2 ^ (e1 - E1) + mz * 2 ^ (ez - E1) ->
  N2 = m2 * 2 ^ (e2 - E2) + mz * 2 ^ (ez - E2) ->
  vle N1 1 E1 N2 1 E2.
Proof.
  intros Hv Hz H1 H1' H2 H2' -> ->.
  set (L := Z.min E1 E2). exists L.
  split; [unfold L; lia|]. split; [unfold L; lia|].
  pose proof (vle_at _ _ _ _ _ _ L Hv ltac:(unfold L; lia) ltac:(unfold L; lia)) as H.
  rewrite !Z.mul_1_r in *. rewrite !Z.mul_add_distr_r, <- !Z.mul_assoc.
  rewrite <- !pow2_split by (unfold L; lia). lia.
Qed.

Lemma vle_add_self N E m e mz ez :
  0 <= m -> E <= e -> E <= ez ->
  N = m * 2 ^ (e - E) + mz * 2 ^ (ez - E) ->
  vle mz 1 ez N 1 E.
Proof.
  intros Hm H1 H2 ->. exists E. split; [lia|]. split; [lia|].
  rewrite Z.sub_diag, Z.pow_0_r, !Z.mul_1_r.
  pose proof (pow2_pos (e - E) ltac:(lia)). nia.
Qed.

Lemma nnf_nonneg f : nnf f -> nonneg_sf f.
Proof.
  unfold nonneg_sf. destruct f as [s|s| |s m e]; cbn; auto; destruct s; auto.
Qed.

Lemma SFleb_zero_any s f : nonneg_sf f -> SFleb (S754_zero s) f = true.
Proof. unfold nonneg_sf. destruct f as [s'|s'| |s' m e]; cbn; auto. Qed.

Lemma SFleb_refl_nnf f : nnf f -> SFleb f f = true.
Proof.
  intros H. unfold SFleb. rewrite SFcompare_refl; [reflexivity|].
  intros ->. exact H.
Qed.

(** Addition is monotone in either argument. *)
Theorem SFadd_mono x1 x2 z :
  nnf x1 -> nnf x2 -> nnf z -> SFleb x1 x2 = true ->
  SFleb (SFadd prec emax x1 z) (SFadd prec emax x2 z) = true
  /\ SFleb (SFadd prec emax z x1) (SFadd prec emax z x2) = true
  /\ nonneg_sf (SFadd prec emax x1 z) /\ nonneg_sf (SFadd prec emax z x1).
Proof.
  intros H1 H2 Hz Hle.
  destruct x1 as [s1|s1| |s1 m1 e1]; try contradiction;
  destruct x2 as [s2|s2| |s2 m2 e2]; try contradiction;
  destruct z as [sz|sz| |sz mz ez]; try contradiction;
  try destruct s1; try destruct s2; try destruct sz;
  try contradiction; try discriminate;
  try (destruct (SFadd_repr m1 e1 mz ez) as (N1 & E1 & R1 & ? & ? & ?));
  try (destruct (SFadd_repr m2 e2 mz ez) as (N2 & E2 & R2 & ? & ? & ?));
  try (destruct (SFadd_repr mz ez m1 e1) as (N1' & E1' & R1' & ? & ? & ?));
  try (destruct (SFadd_repr mz ez m2 e2) as (N2' & E2' & R2' & ? & ? & ?));
  cbn [SFadd] in *; unfold nonneg_sf;
  repeat split; try reflexivity; try assumption;
  try (now apply SFleb_refl_nnf);
  try (now apply nnf_nonneg);
  try (eapply repr_nn; eassumption);
  try (eapply repr_le_inf; eassumption);
  try (eapply repr_mono; [now apply rnd_canonical|eassumption|];
       eapply vle_add_self; [| | |eassumption]; lia);
  try (eapply repr_mono; [now apply rnd_canonical|eassumption|];
       eapply vle_add_self; [| | |rewrite Z.add_comm; eassumption]; lia).
  - eapply repr_mono; [eassumption|eassumption|].
    eapply (vle_add _ _ _ _ _ _ _ _ (Z.pos mz) ez);
      [exact (SFleb_vle m1 e1 m2 e2 H1 H2 Hle)| | | | | |eassumption|eassumption]; lia.
  - eapply repr_mono; [eassumption|eassumption|].
    eapply (vle_add _ _ _ _ _ _ _ _ (Z.pos mz) ez);
      [exact (SFleb_vle m1 e1 m2 e2 H1 H2 Hle)| | | | | | |]; lia.
Qed.

Lemma binary_round_neg m e :
  SFltb (S754_zero false) (binary_round prec emax true m e) = false.
Proof.
  unfold binary_round, binary_round_aux.
  destruct (shl_align _ _ _) as [mz ez].
  destruct (shr_fexp _ _ _ _ _) as [mrs' e'].
  destruct (shr_fexp _ _ _ _ _) as [mrs'' e''].
  destruct (shr_m mrs''); try reflexivity.
  now destruct (_ <=? _).
Qed.

Lemma SFsub_pos mc ec f :
  bounded prec emax mc ec = true -> nnfin f ->
  let z := Z.min ec (expo ec f) in
  mant f * 2 ^ (expo ec f - z) < Z.pos mc * 2 ^ (ec - z) ->
  exists N e,
    repr (SFsub prec emax (S754_finite false mc ec) f) N 1 e
    /\ e <= ec /\ e <= expo ec f
    /\ N = Z.pos mc * 2 ^ (ec - e) - mant f * 2 ^ (expo ec f - e).
Proof.
  intros Hc Hf z H. destruct f as [s|s| |s m e]; try contradiction.
  - exists (Z.pos mc), ec. cbn [SFsub mant expo].
    split; [now apply rnd_canonical|]. rewrite Z.sub_diag, Z.pow_0_r. lia.
  - destruct s; [contradiction|]. cbn [mant expo] in *.
    cbn [SFsub cond_Zopp]. fold z.
    rewrite !shl_align_le by (unfold z; lia). cbn [fst].
    pose proof (pow2_pos (ec - z) ltac:(unfold z; lia)).
    pose proof (pow2_pos (e - z) ltac:(unfold z; lia)).
    rewrite !Z2Pos.id by nia.
    destruct (Z.pos mc * 2 ^ (ec - z) - Z.pos m * 2 ^ (e - z)) as [|M|M] eqn:EM; try lia.
    cbn [binary_normalize].
    destruct (binary_round_repr M z) as (k & Hk & R).
    exists (Z.pos M * 2 ^ k), (z - k). split; [assumption|].
    split; [unfold z; lia|]. split; [unfold z; lia|].
    rewrite <- EM.
    replace (ec - (z - k)) with (ec - z + k) by lia.
    replace (e - (z - k)) with (e - z + k) by lia.
    rewrite !Z.pow_add_r by (unfold z; lia). ring.
Qed.

Lemma SFsub_nonpos mc ec f :
  nnfin f ->
  let z := Z.min ec (expo ec f) in
  Z.pos mc * 2 ^ (ec - z) <= mant f * 2 ^ (expo ec f - z) ->
  SFltb (S754_zero false) (SFsub prec emax (S754_finite false mc ec) f) = false.
Proof.
  intros Hf z H. destruct f as [s|s| |s m e]; try contradiction.
  - cbn [mant expo] in *. pose proof (pow2_pos (ec - z) ltac:(unfold z; lia)). lia.
  - destruct s; [contradiction|]. cbn [mant expo] in *.
    cbn [SFsub cond_Zopp]. fold z.
    rewrite !shl_align_le by (unfold z; lia). cbn [fst].
    pose proof (pow2_pos (ec - z) ltac:(unfold z; lia)).
    pose proof (pow2_pos (e - z) ltac:(unfold z; lia)).
    rewrite !Z2Pos.id by nia.
    destruct (Z.pos mc * 2 ^ (ec - z) - Z.pos m * 2 ^ (e - z)) as [|M|M] eqn:EM; try lia.
    + reflexivity.
    + cbn [binary_normalize]. apply binary_round_neg.
Qed.

Lemma vle_mant dflt f1 f2 :
  nnfin f1 -> nnfin f2 -> SFleb f1 f2 = true ->
  vle (mant f1) 1 (expo dflt f1) (mant f2) 1 (expo dflt f2).
Proof.
  intros H1 H2 Hle.
  destruct f1 as [s1|s1| |[] m1 e1]; try contradiction;
  destruct f2 as [s2|s2| |[] m2 e2]; try contradiction;
  try (cbn in Hle; discriminate); cbn [mant expo].
  - exists dflt. repeat split; lia.
  - exists (Z.min dflt e2).
    pose proof (pow2_pos (e2 - Z.min dflt e2) ltac:(lia)). repeat split; nia.
  - now apply SFleb_vle.
Qed.

Lemma SFltb_zero_le r2 r1 :
  SFltb (S754_zero false) r2 = true -> SFleb r2 r1 = true ->
  SFltb (S754_zero false) r1 = true.
Proof.
  destruct r2 as [s2|s2| |s2 m2 e2], r1 as [s1|s1| |s1 m1 e1]; cbn;
    try discriminate; try destruct s2; try destruct s1; cbn;
    try discriminate; auto.
Qed.

Lemma clip_sub_nonneg c f : nonneg_sf (clip_sub c f).
Proof.
  unfold clip_sub, nonneg_sf.
  destruct (SFltb _ (SFsub _ _ c f)) eqn:E; [|reflexivity].
  unfold SFltb in E. unfold SFleb.
  now destruct (SFcompare _ _) as [[]|].
Qed.

(** [f |-> max(0, c - f)] is antitone. *)
Theorem clip_sub_antitone mc ec f1 f2 :
  bounded prec emax mc ec = true -> nnfin f1 -> nnfin f2 ->
  SFleb f1 f2 = true ->
  let c := S754_finite false mc ec in
  SFleb (clip_sub c f2) (clip_sub c f1) = true.
Proof.
  intros Hc H1 H2 Hle c.
  pose proof (clip_sub_nonneg c f1) as Hnn.
  unfold clip_sub in *.
  destruct (SFltb (S754_zero false) (SFsub prec emax c f2)) eqn:E2;
    [|now apply SFleb_zero_any].
  pose proof (vle_mant ec f1 f2 H1 H2 Hle) as Hv.
  set (z1 := Z.min ec (expo ec f1)). set (z2 := Z.min ec (expo ec f2)).
  destruct (Z.lt_ge_cases (mant f2 * 2 ^ (expo ec f2 - z2)) (Z.pos mc * 2 ^ (ec - z2)))
    as [Hlt2|Hge2];
    [|unfold c in E2; rewrite (SFsub_nonpos mc ec f2 H2 Hge2) in E2; discriminate].
  set (L := Z.min z1 z2).
  pose proof (vle_at _ _ _ _ _ _ L Hv ltac:(unfold L, z1; lia) ltac:(unfold L, z2; lia)) as HvL.
  rewrite !Z.mul_1_r in HvL.
  assert (HL2 : mant f2 * 2 ^ (expo ec f2 - L) < Z.pos mc * 2 ^ (ec - L)).
  { rewrite (pow2_split (expo ec f2) z2 L), (pow2_split ec z2 L) by (unfold L, z2; lia).
    rewrite !Z.mul_assoc. apply Z.mul_lt_mono_pos_r; [apply pow2_pos; unfold L; lia|assumption]. }
  assert (Hlt1 : mant f1 * 2 ^ (expo ec f1 - z1) < Z.pos mc * 2 ^ (ec - z1)).
  { apply (Z.mul_lt_mono_pos_r (2 ^ (z1 - L))); [apply pow2_pos; unfold L; lia|].
    rewrite <- !Z.mul_assoc, <- !pow2_split by (unfold L, z1; lia). lia. }
  destruct (SFsub_pos mc ec f1 Hc H1 Hlt1) as (N1 & E1 & R1 & Ha1 & Hb1 & EN1).
  destruct (SFsub_pos mc ec f2 Hc H2 Hlt2) as (N2 & E2' & R2 & Ha2 & Hb2 & EN2).
  assert (Hr : SFleb (SFsub prec emax c f2) (SFsub prec emax c f1) = true).
  { eapply repr_mono; [exact R2|exact R1|].
    set (K := Z.min (Z.min E1 E2') L). exists K.
    split; [unfold K; lia|]. split; [unfold K; lia|].
    pose proof (vle_at _ _ _ _ _ _ K Hv ltac:(unfold K, L, z1; lia) ltac:(unfold K, L, z2; lia)) as HvK.
    rewrite !Z.mul_1_r in *. subst N1 N2.
    rewrite !Z.mul_sub_distr_r, <- !Z.mul_assoc.
    rewrite <- !pow2_split by (unfold K; lia). lia. }
  rewrite (SFltb_zero_le _ _ E2 Hr). exact Hr.
Qed.

(** It is exactly [+0] from [c] on. *)
Lemma clip_sub_zero mc ec f :
  bounded prec emax mc ec = true -> nnfin f ->
  SFleb (S754_finite false mc ec) f = true ->
  clip_sub (S754_finite false mc ec) f = S754_zero false.
Proof.
  intros Hc Hf Hle. unfold clip_sub.
  rewrite SFsub_nonpos; [reflexivity|assumption|].
  pose proof (vle_mant ec (S754_finite false mc ec) f Hc Hf Hle) as Hv.
  cbn [mant expo] in Hv.
  pose proof (vle_at _ _ _ _ _ _ (Z.min ec (expo ec f)) Hv ltac:(lia) ltac:(lia)) as H.
  rewrite !Z.mul_1_r in H. exact H.
Qed.

(** *** A finite non-zero float divided by itself is one *)


Local Close Scope Z_scope.

(** ** Monotonicity of the float operations *)

Lemma nonneg_nnf x : nonneg x -> nnf (Prim2SF x).
Proof. apply nn_cases. Qed.

Lemma nonneg_le x1 x2 : nonneg x1 -> (x1 <=? x2) = true -> nonneg x2.
Proof.
  unfold nonneg. rewrite !leb_spec. change (Prim2SF 0) with (S754_zero false).
  destruct (Prim2SF x1) as [s1|s1| |s1 m1 e1], (Prim2SF x2) as [s2|s2| |s2 m2 e2];
    cbn; try discriminate; auto; try destruct s1; try destruct s2; cbn; auto;
    discriminate.
Qed.

Lemma amount_nnfin x : amount x -> nnfin (Prim2SF x).
Proof.
  intros [H1 H2]. pose proof (nn_cases x H1) as H. revert H2.
  rewrite ltb_spec. change (Prim2SF infinity) with (S754_infinity false).
  destruct (Prim2SF x) as [s|s| |s m e]; cbn; auto; try destruct s; auto;
    discriminate.
Qed.

Lemma le_finite x k :
  nonneg x -> (x <=? k) = true -> (k <? infinity) = true -> amount x.
Proof.
  intros Hx. split; [exact Hx|]. revert Hx H H0. unfold nonneg.
  rewrite !leb_spec, !ltb_spec.
  change (Prim2SF 0) with (S754_zero false).
  change (Prim2SF infinity) with (S754_infinity false).
  destruct (Prim2SF x) as [s1|s1| |s1 m1 e1], (Prim2SF k) as [s2|s2| |s2 m2 e2];
    cbn; try discriminate; auto; try destruct s1; try destruct s2; cbn; auto;
    discriminate.
Qed.

Lemma amount_le_max x : amount x -> (x <=? max_float) = true.
Proof.
  intros H. apply amount_nnfin in H. rewrite leb_spec.
  change (Prim2SF max_float) with (S754_finite false 9007199254740991 971).
  destruct (Prim2SF x) as [s|s| |s m e]; try contradiction; [reflexivity|].
  destruct s; [contradiction|]. cbn in H.
  destruct (bounded_facts m e H) as (Hd & He & _ & _).
  rewrite SFleb_finite.
  pose proof (Zdigits2_bounds (Z.pos m) ltac:(lia)) as [_ Hhi].
  assert (Z.pos m < 2 ^ 53)%Z.
  { eapply Z.lt_le_trans; [exact Hhi|]. apply Z.pow_le_mono_r; lia. }
  destruct (Z.ltb_spec e 971); [reflexivity|].
  destruct (Z.eqb_spec e 971); [|lia].
  destruct (Z.leb_spec (Z.pos m) 9007199254740991); [reflexivity|].
  change (2 ^ 53)%Z with 9007199254740992%Z in *. lia.
Qed.

(** The three operations of the score, on primitive floats. *)
Theorem mul_mono x1 x2 c :
  nonneg x1 -> (x1 <=? x2) = true -> posfin c ->
  (x1 * c <=? x2 * c) = true /\ nonneg (x1 * c).
Proof.
  intros H1 Hle [Hc1 Hc2]. pose proof (nonneg_le _ _ H1 Hle) as H2.
  destruct (posfin_cases c Hc1 Hc2) as (mc & ec & Ec & Hb).
  unfold nonneg. rewrite !leb_spec, !mul_spec, Ec. rewrite leb_spec in Hle.
  apply SFmul_mono; auto using nonneg_nnf.
Qed.

Theorem div_mono x1 x2 c :
  nonneg x1 -> (x1 <=? x2) = true -> posfin c ->
  (x1 / c <=? x2 / c) = true /\ nonneg (x1 / c).
Proof.
  intros H1 Hle [Hc1 Hc2]. pose proof (nonneg_le _ _ H1 Hle) as H2.
  destruct (posfin_cases c Hc1 Hc2) as (mc & ec & Ec & Hb).
  unfold nonneg. rewrite !leb_spec, !div_spec, Ec. rewrite leb_spec in Hle.
  apply SFdiv_mono; auto using nonneg_nnf.
Qed.

Theorem add_mono x1 x2 z :
  nonneg x1 -> (x1 <=? x2) = true -> nonneg z ->
  (x1 + z <=? x2 + z) = true /\ (z + x1 <=? z + x2) = true
  /\ nonneg (x1 + z) /\ nonneg (z + x1).
Proof.
  intros H1 Hle Hz. pose proof (nonneg_le _ _ H1 Hle) as H2.
  unfold nonneg. rewrite !leb_spec, !add_spec. rewrite leb_spec in Hle.
  apply SFadd_mono; auto using nonneg_nnf.
Qed.

Lemma leb_refl_nonneg x : nonneg x -> (x <=? x) = true.
Proof.
  intros H. rewrite leb_spec. apply SFleb_refl_nnf. now apply nonneg_nnf.
Qed.

Lemma mul_nonneg x c : nonneg x -> posfin c -> nonneg (x * c).
Proof. intros Hx Hc. now apply (mul_mono x x c Hx (leb_refl_nonneg x Hx) Hc). Qed.

Lemma div_nonneg x c : nonneg x -> posfin c -> nonneg (x / c).
Proof. intros Hx Hc. now apply (div_mono x x c Hx (leb_refl_nonneg x Hx) Hc). Qed.

Lemma add_nonneg x z : nonneg x -> nonneg z -> nonneg (x + z).
Proof. intros Hx Hz. now apply (add_mono x x z Hx (leb_refl_nonneg x Hx) Hz). Qed.

(** ** The payback term *)

Lemma pb_score_spec p :
  nonneg p ->
  Prim2SF (pb_score p)
  = match Prim2SF p with
    | S754_infinity _ => S754_zero false
    | f => clip_sub (S754_finite false 5629499534213120 (-49)) f
    end.
Proof.
  intros Hp. apply nonneg_nnf in Hp. unfold pb_score, Py.isinf.
  rewrite eqb_spec, abs_spec.
  change (Prim2SF infinity) with (S754_infinity false).
  assert (Hmax : forall f, Prim2SF p = f ->
            Prim2SF (Py.max 0 (10 - p))
            = clip_sub (S754_finite false 5629499534213120 (-49)) f).
  { intros f Ef. unfold Py.max, clip_sub. rewrite ltb_spec, sub_spec, Ef.
    change (Prim2SF 10) with (S754_finite false 5629499534213120 (-49)).
    change (Prim2SF 0) with (S754_zero false). unfold SF64sub.
    destruct (SFltb _ _); [|reflexivity].
    now rewrite sub_spec, Ef. }
  destruct (Prim2SF p) as [s|s| |s m e] eqn:Ep; try contradiction.
  - now apply Hmax.
  - destruct s; [contradiction|]. reflexivity.
  - destruct s; [contradiction|]. now apply Hmax.
Qed.

Lemma pb_score_nonneg p : nonneg (pb_score p).
Proof.
  unfold pb_score, Py.max, nonneg. destruct (Py.isinf p); [reflexivity|].
  destruct (0 <? 10 - p) eqn:E; [now apply ltb_leb|reflexivity].
Qed.

(** The payback term never increases with the payback. *)
Theorem pb_score_antitone p1 p2 :
  nonneg p1 -> (p1 <=? p2) = true -> (pb_score p2 <=? pb_score p1) = true.
Proof.
  intros H1 Hle. pose proof (nonneg_le _ _ H1 Hle) as H2.
  pose proof (pb_score_nonneg p1) as Hn1. unfold nonneg in Hn1.
  rewrite leb_spec in Hle, Hn1. rewrite leb_spec, (pb_score_spec p2 H2).
  rewrite (pb_score_spec p1 H1) in *.
  apply nonneg_nnf in H1, H2.
  destruct (Prim2SF p2) as [s2|s2| |s2 m2 e2] eqn:E2; try contradiction;
    try (now apply SFleb_zero_any);
    (destruct (Prim2SF p1) as [s1|s1| |s1 m1 e1] eqn:E1; try contradiction;
     [ | destruct s1; [contradiction|try destruct s2; discriminate] | ]);
    apply clip_sub_antitone; try assumption; try reflexivity;
    try (destruct s2; [contradiction|assumption]);
    try (destruct s1; [contradiction|assumption]); exact I.
Qed.

(** From a payback of 10 on it is exactly [0]. *)
Theorem pb_score_saturates p : (10 <=? p) = true -> pb_score p = 0.
Proof.
  intros Hle. assert (Hp : nonneg p) by (now apply (nonneg_le 10 p)).
  apply Prim2SF_inj. rewrite (pb_score_spec p Hp).
  rewrite leb_spec in Hle.
  change (Prim2SF 10) with (S754_finite false 5629499534213120 (-49)) in Hle.
  apply nonneg_nnf in Hp.
  destruct (Prim2SF p) as [s|s| |s m e] eqn:Ep; try contradiction;
    try reflexivity; try discriminate.
  destruct s; [contradiction|].
  now apply clip_sub_zero.
Qed.

(** ** Bounds that keep the intermediate values finite *)

Lemma scale_amount x c :
  amount x -> posfin c -> (max_float * c <? infinity) = true -> amount (x * c).
Proof.
  intros Hx Hc Hk. destruct Hx as [Hx Hf].
  destruct (mul_mono x max_float c Hx (amount_le_max x (conj Hx Hf)) Hc) as [Hle Hn].
  exact (le_finite _ _ Hn Hle Hk).
Qed.

Lemma emissions_amount kwh : amount kwh -> amount (emissions kwh).
Proof.
  intros H. unfold emissions, co2_factor.
  assert (H1 : amount (kwh * 0.20)) by (apply scale_amount; [assumption|split|]; reflexivity).
  destruct H1 as [H1 H1f].
  assert (Hc : posfin 1000) by (split; reflexivity).
  destruct (mul_mono kwh max_float 0.20 (proj1 H) (amount_le_max kwh H)
              ltac:(split; reflexivity)) as [Hle _].
  destruct (div_mono _ _ 1000 H1 Hle Hc) as [Hle' Hn].
  exact (le_finite _ _ Hn Hle' eq_refl).
Qed.

Lemma max_posfin a c : amount a -> posfin c -> posfin (Py.max a c).
Proof.
  intros Ha [Hc1 Hc2]. unfold Py.max. destruct (a <? c) eqn:E; [now split|].
  apply amount_nnfin in Ha. revert E Hc1 Hc2. unfold posfin.
  rewrite !ltb_spec.
  change (Prim2SF 0) with (S754_zero false).
  change (Prim2SF infinity) with (S754_infinity false).
  destruct (Prim2SF a) as [s|s| |s m e]; try contradiction;
    [|destruct s; [contradiction|]];
    destruct (Prim2SF c) as [s'|s'| |s' m' e']; cbn; try discriminate; auto;
    destruct s'; cbn; try discriminate; auto.
Qed.

Lemma amount_nonneg x : amount x -> nonneg x.
Proof. now intros [H _]. Qed.

(** ** The float order on values that are at least zero *)

Lemma leb_total x y :
  nonneg x -> nonneg y -> (x <? y) = false -> (y <=? x) = true.
Proof.
  intros Hx Hy. apply nonneg_nnf in Hx, Hy. rewrite ltb_spec, leb_spec.
  destruct (Prim2SF x) as [s|s| |s m e]; try contradiction;
  destruct (Prim2SF y) as [s'|s'| |s' m' e']; try contradiction;
    try destruct s; try destruct s'; try contradiction; cbn; auto.
  unfold SFltb, SFleb. cbn [SFcompare].
  destruct (Z.compare_spec e e'); try discriminate; auto;
    destruct (Z.compare_spec e' e); try lia; auto.
  subst. fold (Pos.compare m m'). fold (Pos.compare m' m).
  rewrite (Pos.compare_antisym m m'). now destruct (m ?= m')%positive.
Qed.

Lemma leb_trans x y z :
  nonneg x -> (x <=? y) = true -> (y <=? z) = true -> (x <=? z) = true.
Proof.
  intros Hx Hxy Hyz. pose proof (nonneg_le _ _ Hx Hxy) as Hy.
  pose proof (nonneg_le _ _ Hy Hyz) as Hz.
  apply nonneg_nnf in Hx, Hy, Hz. revert Hxy Hyz. rewrite !leb_spec.
  destruct (Prim2SF x) as [s|s| |s m e]; try contradiction;
  destruct (Prim2SF y) as [s'|s'| |s' m' e']; try contradiction;
  destruct (Prim2SF z) as [s''|s''| |s'' m'' e'']; try contradiction;
    try destruct s; try destruct s'; try destruct s''; try contradiction;
    try solve [cbn; auto | cbn; discriminate].
  rewrite !SFleb_finite. intros H1 H2.
  repeat match goal with
  | H : _ || _ = true |- _ => apply orb_prop in H; destruct H
  | H : _ && _ = true |- _ => apply andb_prop in H; destruct H
  | H : (_ <? _)%Z = true |- _ => apply Z.ltb_lt in H
  | H : (_ =? _)%Z = true |- _ => apply Z.eqb_eq in H
  | H : (_ <=? _)%Z = true |- _ => apply Z.leb_le in H
  end;
  destruct (Z.ltb_spec e e''); cbn; auto;
  destruct (Z.eqb_spec e e''); try lia; cbn; apply Z.leb_le; lia.
Qed.

Lemma SFcompare_Eq_inv x y :
  SFcompare x y = Some Eq ->
  match x, y with
  | S754_zero _, S754_zero _ => True
  | S754_infinity s, S754_infinity s' => s = s'
  | S754_finite s m e, S754_finite s' m' e' => s = s' /\ m = m' /\ e = e'
  | _, _ => False
  end.
Proof.
  destruct x as [s|s| |s m e], y as [s'|s'| |s' m' e']; cbn; auto;
    try discriminate; try (destruct s; discriminate);
    try (destruct s'; discriminate).
  - destruct s, s'; auto; discriminate.
  - destruct s, s'; try discriminate;
      destruct (Z.compare_spec e e'); try discriminate; subst;
      fold (Pos.compare m m'); intros H; inversion H as [H'];
      [apply CompOpp_iff in H'; cbn in H'|]; apply Pos.compare_eq in H'; auto.
Qed.

Lemma ltb_eqb_excl x y v :
  (x <? y) = true -> (x =? v) = true -> (y =? v) = true -> False.
Proof.
  rewrite ltb_spec, !eqb_spec. unfold SFltb, SFeqb. intros Hlt Hx Hy.
  destruct (SFcompare (Prim2SF x) (Prim2SF v)) as [[]|] eqn:Ex; try discriminate.
  destruct (SFcompare (Prim2SF y) (Prim2SF v)) as [[]|] eqn:Ey; try discriminate.
  apply SFcompare_Eq_inv in Ex, Ey.
  destruct (Prim2SF x) as [s|s| |s m e], (Prim2SF v) as [sv|sv| |sv mv ev],
           (Prim2SF y) as [s'|s'| |s' m' e']; try contradiction.
  - discriminate.
  - subst. destruct sv; discriminate.
  - destruct Ex as (-> & -> & ->), Ey as (-> & -> & ->).
    rewrite SFcompare_refl in Hlt; [discriminate|congruence].
Qed.

(** ** Evaluating the embedding *)

Lemma ltb_eqb_zero_false (x : float) : (0 <? x) = true -> (x =? 0) = false.
Proof.
  rewrite ltb_spec, eqb_spec. unfold SFltb, SFeqb.
  change (Prim2SF 0) with (S754_zero false).
  destruct (Prim2SF x) as [s|s| |s m e]; simpl; try discriminate; auto;
    destruct s; auto.
Qed.

Lemma max_nonzero (a c : float) : (0 <? c) = true -> (Py.max a c =? 0) = false.
Proof.
  intros Hc. unfold Py.max. destruct (a <? c) eqn:Hac.
  - now apply ltb_eqb_zero_false.
  - revert Hc Hac. rewrite !ltb_spec, eqb_spec. unfold SFltb, SFeqb.
    change (Prim2SF 0) with (S754_zero false).
    destruct (Prim2SF a) as [s|s| |s m e], (Prim2SF c) as [s'|s'| |s' m' e'];
      simpl; try discriminate; auto; destruct s; auto; destruct s'; auto; try discriminate.
Qed.

Lemma truediv_nonzero (x y : float) : (y =? 0) = false -> truediv x y = Ok (x / y).
Proof. intros H. unfold truediv. now rewrite H. Qed.

Lemma guarded_div (c s : float) :
  (if 0 <? s then truediv c s else Ok infinity) = Ok (payback_of c s).
Proof.
  unfold payback_of. destruct (0 <? s) eqn:Hs; [|reflexivity].
  apply truediv_nonzero. now apply ltb_eqb_zero_false.
Qed.

Lemma build_options_eq bill kwh budget t batt :
  build_options bill kwh budget (tier_key t) batt
  = Ok [onsite bill kwh budget t batt; ppa bill kwh t; offsets kwh].
Proof.
  unfold build_options.
  replace (getitem feas_table (tier_key t)) with (Ok (multiplier t)) by (now destruct t).
  cbn [Py.bind]. unfold clamped_capex.
  rewrite !(truediv_nonzero _ 1000) by reflexivity. cbn [Py.bind].
  fold (estimate kwh t).
  destruct (phase budget (estimate kwh t)) as [ph cx] eqn:Hph.
  rewrite !guarded_div. cbn [Py.bind].
  unfold onsite, ppa, offsets, emissions, save_frac. rewrite Hph. cbn [fst snd].
  destruct batt; reflexivity.
Qed.

Lemma score_formula_eq bill kwh s pb c :
  score_formula bill kwh s (pb_score pb) c = Ok (score_value bill kwh s pb c).
Proof.
  unfold score_formula.
  rewrite truediv_nonzero by (now apply max_nonzero). cbn [Py.bind].
  rewrite (truediv_nonzero _ 1000) by reflexivity. cbn [Py.bind].
  fold (emissions kwh).
  rewrite truediv_nonzero by (now apply max_nonzero). reflexivity.
Qed.

Lemma score_option_eq g bill kwh o :
  bound g "math" = true ->
  score_option g bill kwh o = Ok (scored bill kwh o).
Proof.
  intros Hg. unfold score_option, load_global. rewrite Hg. cbn [Py.bind].
  now rewrite score_formula_eq.
Qed.

Lemma score_option_unbound g bill kwh o :
  bound g "math" = false ->
  score_option g bill kwh o = Raise (NameError "math").
Proof.
  intros Hg. unfold score_option, load_global. now rewrite Hg.
Qed.

Lemma mapM_ok {A B : Type} (f : A -> result B) (h : A -> B) (l : list A) :
  (forall x, f x = Ok (h x)) -> mapM f l = Ok (map h l).
Proof.
  intros Hf. induction l as [|x l IH]; [reflexivity|].
  cbn [mapM map]. now rewrite Hf, IH.
Qed.

Lemma compute_options_eq g bill kwh budget t batt :
  bound g "math" = true ->
  compute_options g bill kwh budget (tier_key t) batt
  = Ok (ranking (identity_order bill kwh budget t batt)).
Proof.
  intros Hg. unfold compute_options. rewrite build_options_eq. cbn [Py.bind].
  rewrite (mapM_ok _ (scored bill kwh)) by (intros; now apply score_option_eq).
  cbn [Py.bind]. reflexivity.
Qed.

Lemma compute_options_unbound g bill kwh budget t batt :
  bound g "math" = false ->
  compute_options g bill kwh budget (tier_key t) batt = Raise (NameError "math").
Proof.
  intros Hg. unfold compute_options. rewrite build_options_eq. cbn [Py.bind mapM].
  now rewrite score_option_unbound.
Qed.

(** Whatever the namespace, a list that [compute_options] returns is the
    ranking of the three scored records. *)
Lemma compute_options_inv g bill kwh budget t batt l :
  compute_options g bill kwh budget (tier_key t) batt = Ok l ->
  l = ranking (identity_order bill kwh budget t batt).
Proof.
  destruct (bound g "math") eqn:Hg.
  - rewrite compute_options_eq by assumption. now intros [= <-].
  - rewrite compute_options_unbound by assumption. discriminate.
Qed.

Lemma insert_desc_perm {A} (x : float * A) l : Permutation (insert_desc x l) (x :: l).
Proof.
  induction l as [|y l IH]; cbn [insert_desc]; [reflexivity|].
  destruct (fst x <? fst y); [|reflexivity].
  rewrite IH. apply perm_swap.
Qed.

Lemma sort_desc_perm {A} (l : list (float * A)) : Permutation (sort_desc l) l.
Proof.
  induction l as [|x l IH]; cbn; [reflexivity|].
  rewrite insert_desc_perm. now constructor.
Qed.

Lemma ranking_perm l : Permutation (ranking l) l.
Proof.
  unfold ranking. rewrite sort_desc_perm, map_map. cbn [snd]. now rewrite map_id.
Qed.

Lemma filter_perm {A} (f : A -> bool) l l' :
  Permutation l l' -> Permutation (filter f l) (filter f l').
Proof.
  induction 1; cbn.
  - reflexivity.
  - destruct (f x); auto.
  - destruct (f x), (f y); auto using perm_swap.
  - etransitivity; eassumption.
Qed.

Lemma ranking_select f l o : filter f l = [o] -> filter f (ranking l) = [o].
Proof.
  intros H. apply Permutation_length_1_inv. rewrite <- H.
  symmetry. apply filter_perm, ranking_perm.
Qed.

Lemma select_onsite bill kwh budget t batt :
  filter is_onsite (identity_order bill kwh budget t batt)
  = [scored bill kwh (onsite bill kwh budget t batt)].
Proof. destruct batt; reflexivity. Qed.

Lemma select_ppa bill kwh budget t batt :
  filter is_ppa (identity_order bill kwh budget t batt)
  = [scored bill kwh (ppa bill kwh t)].
Proof. destruct batt; reflexivity. Qed.


Lemma clamp_within (q : float) :
  within 500000.0 8000000.0 (Py.max 500000.0 (Py.min 8000000.0 q)).
Proof.
  unfold Py.min. destruct (q <? 8000000.0) eqn:Hhi; unfold Py.max.
  - destruct (500000.0 <? q) eqn:Hlo.
    + split; now apply ltb_leb.
    + split; reflexivity.
  - split; reflexivity.
Qed.

Lemma estimate_within kwh t : within 500000.0 8000000.0 (estimate kwh t).
Proof. apply clamp_within. Qed.

(** ** Sorting *)

Section Sorting.
Context {A : Type}.
Implicit Types (x y : float * A) (l : list (float * A)).

Lemma insert_desc_In x l y : In y (insert_desc x l) -> y = x \/ In y l.
Proof.
  intros H. apply (Permutation_in _ (insert_desc_perm x l)) in H.
  destruct H; auto.
Qed.

Lemma insert_desc_sorted x l :
  key_nonneg x -> Forall key_nonneg l ->
  StronglySorted key_ge l -> StronglySorted key_ge (insert_desc x l).
Proof.
  intros Hx Hl Hs. induction Hs as [|y l Hs IH Hy]; cbn [insert_desc].
  - repeat constructor.
  - inversion Hl as [|? ? Hny Hnl]; subst.
    destruct (fst x <? fst y) eqn:E.
    + constructor; [now apply IH|].
      apply Forall_forall. intros z Hz.
      apply insert_desc_In in Hz as [->|Hz].
      * now apply ltb_leb.
      * now apply (proj1 (Forall_forall _ _) Hy).
    + constructor; [now constructor|].
      assert (Hyx : key_ge x y) by (now apply leb_total).
      constructor; [assumption|].
      apply Forall_forall. intros z Hz.
      pose proof (proj1 (Forall_forall _ _) Hy z Hz) as Hzy.
      pose proof (proj1 (Forall_forall _ _) Hnl z Hz) as Hnz.
      unfold key_ge in *. now apply (leb_trans (fst z) (fst y) (fst x)).
Qed.

Lemma sort_desc_sorted l :
  Forall key_nonneg l -> StronglySorted key_ge (sort_desc l).
Proof.
  induction 1 as [|x l Hx Hl IH]; cbn; [constructor|].
  apply insert_desc_sorted; auto.
  now rewrite (sort_desc_perm l).
Qed.

Lemma insert_desc_stable v x l :
  filter (fun y => fst y =? v) (insert_desc x l)
  = filter (fun y => fst y =? v) (x :: l).
Proof.
  induction l as [|y l IH]; [reflexivity|]. cbn [insert_desc].
  destruct (fst x <? fst y) eqn:E; [|reflexivity].
  cbn [filter] in *. rewrite IH.
  destruct (fst x =? v) eqn:Ex, (fst y =? v) eqn:Ey; try reflexivity.
  destruct (ltb_eqb_excl _ _ _ E Ex Ey).
Qed.

Lemma sort_desc_stable v l :
  filter (fun y => fst y =? v) (sort_desc l) = filter (fun y => fst y =? v) l.
Proof.
  induction l as [|x l IH]; [reflexivity|].
  cbn [sort_desc fold_right]. fold (sort_desc l).
  rewrite insert_desc_stable. cbn [filter]. now rewrite IH.
Qed.
End Sorting.

Lemma keyed_inv l :
  Forall scored_nonneg l ->
  Forall (fun p => score (snd p) = Some (fst p) /\ nonneg (fst p)) (map keyed l).
Proof.
  induction 1 as [|o l (s & Es & Hs) Hl IH]; cbn [map]; constructor; auto.
  unfold keyed. rewrite Es. cbn. auto.
Qed.

Lemma sorted_map_snd (L : list (float * option_dict)) :
  Forall (fun p => score (snd p) = Some (fst p) /\ nonneg (fst p)) L ->
  StronglySorted key_ge L -> StronglySorted score_ge (map snd L).
Proof.
  intros Hinv Hs. induction Hs as [|p L Hs IH Hp]; cbn [map]; [constructor|].
  inversion Hinv as [|? ? [Ep _] HL]; subst.
  constructor; [now apply IH|].
  apply Forall_forall. intros o Ho. apply in_map_iff in Ho as (q & <- & Hq).
  pose proof (proj1 (Forall_forall _ _) Hp q Hq) as Hge.
  pose proof (proj1 (Forall_forall _ _) HL q Hq) as [Eq _].
  unfold score_ge. now rewrite Ep, Eq.
Qed.

Lemma filter_map_snd v (L : list (float * option_dict)) :
  Forall (fun p => score (snd p) = Some (fst p) /\ nonneg (fst p)) L ->
  filter (has_score v) (map snd L) = map snd (filter (fun p => fst p =? v) L).
Proof.
  induction 1 as [|p L [Ep _] HL IH]; [reflexivity|].
  cbn [map filter]. unfold has_score at 1. rewrite Ep, IH.
  now destruct (fst p =? v).
Qed.

Lemma ranking_stable l :
  Forall scored_nonneg l -> stable_descending_sort l (ranking l).
Proof.
  intros Hl. pose proof (keyed_inv l Hl) as Hk.
  assert (Hs : Forall (fun p => score (snd p) = Some (fst p) /\ nonneg (fst p))
                      (sort_desc (map keyed l))).
  { eapply Permutation_Forall; [symmetry; apply sort_desc_perm|exact Hk]. }
  split; [apply ranking_perm|]. split.
  - apply sorted_map_snd; [exact Hs|]. apply sort_desc_sorted.
    eapply Forall_impl; [|exact Hk]. now intros p [_ H].
  - intros v. unfold ranking. fold keyed.
    rewrite (filter_map_snd v _ Hs), sort_desc_stable, <- (filter_map_snd v _ Hk).
    now rewrite map_map, map_id.
Qed.

(** ** Facts about the three records *)

Lemma save_frac_posfin t batt :
  posfin (save_frac t batt)
  /\ (max_float * save_frac t batt <? infinity) = true.
Proof. destruct t, batt; repeat split. Qed.

Lemma ppa_frac_posfin t :
  posfin (0.18 * multiplier t)
  /\ (max_float * (0.18 * multiplier t) <? infinity) = true.
Proof. destruct t; repeat split. Qed.

Lemma estimate_nonneg kwh t : nonneg (estimate kwh t).
Proof.
  destruct (estimate_within kwh t) as [H _].
  now apply (nonneg_le 500000.0).
Qed.

Lemma phase_nonneg budget est :
  nonneg est -> nonneg (snd (phase budget est)).
Proof.
  intros H. unfold phase.
  destruct ((0 <? budget) && (budget <? est)) eqn:E; cbn [snd]; [|assumption].
  apply andb_prop in E as [E _]. now apply ltb_leb.
Qed.

Lemma nonneg_not_pos x : nonneg x -> (0 <? x) = false -> (x =? 0) = true.
Proof.
  unfold nonneg. rewrite leb_spec, ltb_spec, eqb_spec.
  change (Prim2SF 0) with (S754_zero false).
  destruct (Prim2SF x) as [s|s| |s m e]; cbn; auto; try destruct s; cbn; auto;
    discriminate.
Qed.

Lemma payback_of_law c s o :
  nonneg c -> amount s ->
  capex o = c -> annual_savings o = s -> payback_years o = payback_of c s ->
  payback_law o.
Proof.
  intros Hc [Hs Hf] Ec Es Hp. unfold payback_law. rewrite Hp, Ec, Es.
  unfold payback_of. destruct (0 <? s) eqn:E.
  - repeat split; auto.
    + apply div_nonneg; [assumption|now split].
    + intros Hz. apply eqb_zero_not_pos in Hz. congruence.
  - repeat split; auto; try discriminate.
    intros _. left. now apply nonneg_not_pos.
Qed.

Lemma score_value_nonneg bill kwh s pb c :
  amount bill -> amount kwh -> nonneg s -> nonneg c ->
  nonneg (score_value bill kwh s pb c).
Proof.
  intros Hb Hk Hs Hc. unfold score_value.
  assert (HB : posfin (Py.max bill 1.0)) by (apply max_posfin; [assumption|now split]).
  assert (HE : posfin (Py.max (emissions kwh) 1e-6))
    by (apply max_posfin; [now apply emissions_amount|now split]).
  assert (H10 : posfin 10.0) by (now split).
  assert (H5 : posfin 5.0) by (now split).
  auto using add_nonneg, mul_nonneg, div_nonneg, pb_score_nonneg.
Qed.

Lemma onsite_nonneg bill kwh budget t batt :
  amount bill -> amount kwh ->
  let o := onsite bill kwh budget t batt in
  nonneg (capex o) /\ nonneg (annual_savings o) /\ nonneg (co2_saved_t o)
  /\ amount (annual_savings o).
Proof.
  intros Hb Hk o. destruct (save_frac_posfin t batt) as [Hf Hm].
  assert (H02 : posfin 0.20) by (now split).
  assert (H1000 : posfin 1000.0) by (now split).
  cbn [o onsite capex annual_savings co2_saved_t]. unfold co2_factor.
  repeat split.
  - apply phase_nonneg, estimate_nonneg.
  - apply mul_nonneg; [apply Hb|assumption].
  - auto using div_nonneg, mul_nonneg, amount_nonneg.
  - apply scale_amount; assumption.
  - apply scale_amount; assumption.
Qed.

Lemma ppa_nonneg bill kwh t :
  amount bill -> amount kwh ->
  let o := ppa bill kwh t in
  nonneg (capex o) /\ nonneg (annual_savings o) /\ nonneg (co2_saved_t o)
  /\ amount (annual_savings o).
Proof.
  intros Hb Hk o. destruct (ppa_frac_posfin t) as [Hf Hm].
  assert (H02 : posfin 0.20) by (now split).
  assert (H03 : posfin 0.30) by (now split).
  assert (H1000 : posfin 1000.0) by (now split).
  cbn [o ppa capex annual_savings co2_saved_t]. unfold co2_factor.
  repeat split.
  - apply mul_nonneg; [apply Hb|assumption].
  - auto using div_nonneg, mul_nonneg, amount_nonneg.
  - apply scale_amount; assumption.
  - apply scale_amount; assumption.
Qed.

Lemma offsets_nonneg kwh :
  amount kwh ->
  let o := offsets kwh in
  nonneg (capex o) /\ nonneg (annual_savings o) /\ nonneg (co2_saved_t o)
  /\ amount (annual_savings o).
Proof.
  intros Hk o. pose proof (emissions_amount kwh Hk) as [He _].
  assert (H30 : posfin 30.0) by (now split).
  cbn [o offsets capex annual_savings co2_saved_t].
  repeat split; auto using mul_nonneg.
Qed.

Lemma identity_order_nonneg bill kwh budget t batt :
  amount bill -> amount kwh ->
  Forall nonneg_record (identity_order bill kwh budget t batt).
Proof.
  intros Hb Hk. unfold identity_order. cbn [map].
  destruct (onsite_nonneg bill kwh budget t batt Hb Hk) as (A1 & A2 & A3 & _).
  destruct (ppa_nonneg bill kwh t Hb Hk) as (B1 & B2 & B3 & _).
  destruct (offsets_nonneg kwh Hk) as (C1 & C2 & C3 & _).
  repeat constructor; try assumption;
    (eexists; split; [reflexivity|]; now apply score_value_nonneg).
Qed.

Lemma identity_order_payback bill kwh budget t batt :
  amount bill -> amount kwh ->
  Forall payback_law (identity_order bill kwh budget t batt).
Proof.
  intros Hb Hk. unfold identity_order. cbn [map].
  destruct (onsite_nonneg bill kwh budget t batt Hb Hk) as (A1 & _ & _ & A4).
  destruct (ppa_nonneg bill kwh t Hb Hk) as (B1 & _ & _ & B4).
  apply Forall_cons; [|apply Forall_cons; [|apply Forall_cons; [|apply Forall_nil]]].
  - eapply payback_of_law; [exact A1|exact A4|reflexivity..].
  - eapply payback_of_law; [exact B1|exact B4|reflexivity..].
  - unfold payback_law. cbn. repeat split; auto; discriminate.
Qed.

(** ** The score of the offsets record *)

Lemma leb_not_ltb a c : nonneg c -> (c <=? a) = true -> (a <? c) = false.
Proof.
  intros Hc Hle. pose proof (nonneg_le _ _ Hc Hle) as Ha.
  apply nonneg_nnf in Hc, Ha. revert Hle. rewrite ltb_spec, leb_spec.
  destruct (Prim2SF a) as [s|s| |s m e]; try contradiction;
  destruct (Prim2SF c) as [s'|s'| |s' m' e']; try contradiction;
    try destruct s; try destruct s'; try contradiction;
    try solve [cbn; auto | cbn; discriminate].
  unfold SFltb, SFleb. cbn [SFcompare].
  destruct (Z.compare_spec e e'); try discriminate; auto;
    destruct (Z.compare_spec e' e); try lia; auto; try discriminate.
  subst. fold (Pos.compare m m'). fold (Pos.compare m' m).
  rewrite (Pos.compare_antisym m m'). now destruct (m ?= m')%positive.
Qed.






Lemma emissions_floor kwh :
  (0.005 <=? kwh) = true -> (1e-6 <=? emissions kwh) = true.
Proof.
  intros H. unfold emissions, co2_factor.
  assert (H0 : nonneg 0.005) by reflexivity.
  destruct (mul_mono 0.005 kwh 0.20 H0 H ltac:(now split)) as [H1 H1n].
  destruct (div_mono _ _ 1000.0 H1n H1 ltac:(now split)) as [H2 _].
  exact H2.
Qed.

(** ** The records before they are scored *)



Lemma options_payback bill kwh budget t batt :
  amount bill -> amount kwh ->
  Forall payback_law [onsite bill kwh budget t batt; ppa bill kwh t; offsets kwh].
Proof.
  intros Hb Hk.
  destruct (onsite_nonneg bill kwh budget t batt Hb Hk) as (A1 & _ & _ & A4).
  destruct (ppa_nonneg bill kwh t Hb Hk) as (B1 & _ & _ & B4).
  apply Forall_cons; [|apply Forall_cons; [|apply Forall_cons; [|apply Forall_nil]]].
  - eapply payback_of_law; [exact A1|exact A4|reflexivity..].
  - eapply payback_of_law; [exact B1|exact B4|reflexivity..].
  - unfold payback_law. cbn. repeat split; auto; discriminate.
Qed.

Lemma returned_Forall (P : option_dict -> Prop) g bill kwh budget t batt l :
  Forall P (identity_order bill kwh budget t batt) ->
  compute_options g bill kwh budget (tier_key t) batt = Ok l ->
  Forall P l.
Proof.
  intros HP Hl. apply compute_options_inv in Hl as ->.
  eapply Permutation_Forall; [symmetry; apply ranking_perm|exact HP].
Qed.
(** ** The claims on single records *)

(** C2 (as the code behaves).  [app.py] never imports [math] (lines 1-6), yet
    line 106 calls [math.isinf]: for every input, also every documented one,
    [compute_options] raises [NameError] while scoring the first record and
    returns nothing. *)
Theorem compute_options_raises_NameError bill kwh budget t batt :
  compute_options app_globals bill kwh budget (tier_key t) batt
  = Raise (NameError "math").
Proof.
  unfold compute_options. rewrite build_options_eq. cbn [Py.bind mapM].
  now rewrite score_option_unbound.
Qed.

(** C1 (as stated) fails: with a budget of 1000 the clamped estimate, which is
    at least 500000, exceeds the budget, lines 53-55 set the CAPEX to 1000,
    and 1000 is not within [[500000, budget]]. *)
Lemma capex_bounds_as_specified_fails :
  ~ (exists options o,
        build_options 2000000 3500000 1000 (tier_key Low) false = Ok options
        /\ filter is_onsite options = [o]
        /\ capex_bounds_as_specified 1000 (estimate 3500000 Low) o).
Proof.
  intros (options & o & Hl & Ho & Hc).
  vm_compute in Hl. injection Hl as <-.
  vm_compute in Ho. injection Ho as <-.
  vm_compute in Hc. destruct Hc as [[Hlo _] _]. discriminate Hlo.
Qed.

(** C1 (amended).  In the list built by lines 40-101, when [budget > 0] and
    the clamped estimate exceeds [budget], the on-site CAPEX is exactly
    [budget] (so it lies in [(0, budget]]) and the record is marked phased;
    otherwise the CAPEX is the clamped estimate, lies within
    [[500000, 8000000]], and the record carries the generic note. *)
Theorem onsite_capex_bounds bill kwh budget t batt :
  exists options o,
    build_options bill kwh budget (tier_key t) batt = Ok options
    /\ filter is_onsite options = [o]
    /\ if (0 <? budget) && (budget <? estimate kwh t)
       then capex o = budget /\ (0 <? capex o) = true
            /\ (capex o <=? budget) = true /\ notes o = notes_phased
       else capex o = estimate kwh t /\ within 500000.0 8000000.0 (capex o)
            /\ notes o = notes_onsite.
Proof.
  eexists. eexists. split; [apply build_options_eq|].
  split; [now destruct batt|].
  cbn [onsite capex notes]. unfold phase.
  destruct ((0 <? budget) && (budget <? estimate kwh t)) eqn:Hc; cbn [fst snd].
  - apply andb_prop in Hc as [Hb _]. auto using pos_leb_refl.
  - auto using estimate_within.
Qed.

(** C6.  With a budget of zero no phasing is applied: in the list built by
    lines 40-101 the on-site CAPEX is the clamped estimate, whatever its
    size, and the notes carry the generic on-site-generation text. *)
Theorem zero_budget_no_phasing bill kwh budget t batt :
  (budget =? 0) = true ->
  exists options o,
    build_options bill kwh budget (tier_key t) batt = Ok options
    /\ filter is_onsite options = [o]
    /\ capex o = estimate kwh t
    /\ notes o = notes_onsite.
Proof.
  intros Hb. eexists. eexists. split; [apply build_options_eq|].
  split; [now destruct batt|].
  cbn [onsite capex notes]. unfold phase.
  rewrite (eqb_zero_not_pos _ Hb). cbn. auto.
Qed.

Lemma zero_budget_no_phasing_witness :
  exists options o,
    build_options 2000000 3500000 0 (tier_key High) true = Ok options
    /\ filter is_onsite options = [o]
    /\ capex o = estimate 3500000 High
    /\ notes o = notes_onsite.
Proof.
  exact (zero_budget_no_phasing 2000000 3500000 0 High true eq_refl).
Defined.

(** C7.  In the list built by lines 40-101 the PPA record has CAPEX 25000,
    savings [annual_bill * (0.18 * multiplier)] and CO2 proxy
    [annual_kwh * 0.30 * 0.20 / 1000], in which the multiplier does not
    occur. *)
Theorem ppa_fields bill kwh budget t batt :
  exists options o,
    build_options bill kwh budget (tier_key t) batt = Ok options
    /\ filter is_ppa options = [o]
    /\ capex o = 25000.0
    /\ annual_savings o = bill * (0.18 * multiplier t)
    /\ co2_saved_t o = ((kwh * 0.30) * 0.20) / 1000.0.
Proof.
  eexists. eexists. split; [apply build_options_eq|].
  split; [now destruct batt|]. repeat split.
Qed.

(** C8 (as stated) fails in binary64: for [annual_kwh = 2001000] line 71
    gives the CAPEX [2001000 * 0.20 / 1000 * 30 = 12006], while
    [2001000 * (0.20 / 1000) * 30] is [12006.000000000002]. *)
Lemma offsets_as_specified_fails :
  ~ (exists options o,
        build_options 2000000 2001000 4500000 (tier_key High) true = Ok options
        /\ filter is_offsets options = [o]
        /\ offsets_as_specified 2001000 o).
Proof.
  intros (options & o & Hl & Ho & Hc).
  vm_compute in Hl. injection Hl as <-.
  vm_compute in Ho. injection Ho as <-.
  destruct Hc as (_ & _ & Hc & _). cbn [capex] in Hc.
  apply (f_equal Prim2SF) in Hc. vm_compute in Hc. discriminate Hc.
Qed.

(** C8 (amended).  In the list built by lines 40-101 the offsets record has
    zero savings, infinite payback, the CAPEX
    [((annual_kwh * 0.20) / 1000) * 30], computed in this order, and the CO2
    proxy [(annual_kwh * 0.20) / 1000]. *)
Theorem offsets_fields bill kwh budget t batt :
  exists options o,
    build_options bill kwh budget (tier_key t) batt = Ok options
    /\ filter is_offsets options = [o]
    /\ offsets_law kwh o.
Proof.
  eexists. eexists. split; [apply build_options_eq|].
  split; [now destruct batt|]. repeat split.
Qed.
(** ** The claims on the ranking and on the score *)

(** With [math] bound, as the import that line 106 supposes would bind it,
    [compute_options] returns exactly three records, and they are a stable
    descending sort of the identity-ordered list (on-site generation, PPA,
    offsets): scores never increase along the result, and records of equal
    score keep their identity order. *)
Lemma sorted_ranking_when_math_bound g bill kwh budget t batt :
  bound g "math" = true -> amount bill -> amount kwh ->
  exists l,
    compute_options g bill kwh budget (tier_key t) batt = Ok l
    /\ List.length l = 3%nat
    /\ map is_onsite (identity_order bill kwh budget t batt) = [true; false; false]
    /\ map is_ppa (identity_order bill kwh budget t batt) = [false; true; false]
    /\ map is_offsets (identity_order bill kwh budget t batt) = [false; false; true]
    /\ stable_descending_sort (identity_order bill kwh budget t batt) l.
Proof.
  intros Hg Hb Hk.
  assert (Hs : stable_descending_sort (identity_order bill kwh budget t batt)
                 (ranking (identity_order bill kwh budget t batt))).
  { apply ranking_stable.
    eapply Forall_impl; [|now apply identity_order_nonneg].
    now intros o (_ & _ & _ & H). }
  eexists. split; [now apply compute_options_eq|].
  split; [|destruct batt; repeat split; apply Hs].
  destruct Hs as (Hp & _). now rewrite (Permutation_length Hp).
Qed.

(** C3 (as the code behaves).  Lines 40-101 build the three records in the
    identity order (on-site generation, PPA, offsets), but the scoring loop
    of lines 104-107 raises [NameError] on the first of them, [math] not
    being imported; line 109 is never reached and [compute_options] returns
    no list, sorted or not, whatever the input. *)
Theorem no_ranking_is_returned bill kwh budget t batt :
  exists options,
    build_options bill kwh budget (tier_key t) batt = Ok options
    /\ map is_onsite options = [true; false; false]
    /\ map is_ppa options = [false; true; false]
    /\ map is_offsets options = [false; false; true]
    /\ mapM (score_option app_globals bill kwh) options = Raise (NameError "math")
    /\ forall l,
         compute_options app_globals bill kwh budget (tier_key t) batt <> Ok l.
Proof.
  eexists. split; [apply build_options_eq|].
  split; [now destruct batt|]. split; [now destruct batt|].
  split; [now destruct batt|]. split.
  - cbn [mapM]. now rewrite score_option_unbound.
  - intros l. now rewrite compute_options_unbound.
Qed.

(** C4 (as stated) fails: with an annual bill of 1e-305 the on-site savings
    are 7e-306, which is not zero, and the quotient 500000 / 7e-306 overflows,
    so line 58 gives the payback +infinity although the savings are
    positive. *)
Lemma payback_as_specified_fails :
  ~ (exists options,
        build_options 1e-305 3500000 0 (tier_key High) true = Ok options
        /\ Forall payback_as_specified options).
Proof.
  intros (l & Hl & Hf). vm_compute in Hl. injection Hl as <-.
  inversion Hf as [|? ? Ho _]; subst.
  destruct Ho as (_ & _ & [Hinf _]). cbn in Hinf.
  specialize (Hinf eq_refl). vm_compute in Hinf. discriminate Hinf.
Qed.

(** C4 (amended).  For every valid input and each of the three records built
    by lines 40-101, [payback_years] is at least zero (so it is no NaN),
    equals [capex / annual_savings] when [annual_savings > 0], and is
    +infinity when [annual_savings == 0]; it is +infinity only if
    [annual_savings == 0] or the quotient itself is +infinity.  Building the
    records raises nothing, and the same holds of every record of a list that
    [compute_options] returns, in whatever namespace it runs. *)
Theorem payback_years_law bill kwh budget t batt :
  amount bill -> amount kwh ->
  (exists options,
      build_options bill kwh budget (tier_key t) batt = Ok options
      /\ List.length options = 3%nat
      /\ Forall payback_law options)
  /\ forall g l,
       compute_options g bill kwh budget (tier_key t) batt = Ok l ->
       Forall payback_law l.
Proof.
  intros Hb Hk. split.
  - eexists. split; [apply build_options_eq|]. split; [reflexivity|].
    now apply options_payback.
  - intros g l. apply returned_Forall. now apply identity_order_payback.
Qed.

Lemma payback_years_law_witness :
  (exists options,
      build_options 1e-305 3500000 0 (tier_key High) true = Ok options
      /\ List.length options = 3%nat
      /\ Forall payback_law options)
  /\ forall g l,
       compute_options g 1e-305 3500000 0 (tier_key High) true = Ok l ->
       Forall payback_law l.
Proof.
  exact (payback_years_law 1e-305 3500000 0 High true
           (conj eq_refl eq_refl) (conj eq_refl eq_refl)).
Defined.

(** C5 (as stated) fails: the paybacks 2.875 and 2.8750000000000004 both lie
    in [[0, 10]], yet [10.0 - pb] rounds to 7.125 for both and the two scores
    are the same 17.625. *)
Lemma strictly_decreasing_in_payback_fails :
  ~ strictly_decreasing_in_payback 2000000 3500000 1400000 490.
Proof.
  intros H.
  specialize (H 2.875 2.8750000000000004 eq_refl eq_refl eq_refl).
  vm_compute in H. discriminate H.
Qed.

(** C5 (amended).  With the other arguments held fixed, the score never
    decreases when [annual_savings] or [co2_saved_t] grows and never increases
    when [payback_years] grows; for a payback of 10 or more, +infinity
    included, the payback contribution is exactly 0. *)
Theorem score_monotone bill kwh :
  amount bill -> amount kwh ->
  (forall s1 s2 pb c, nonneg s1 -> (s1 <=? s2) = true -> nonneg c ->
     (score_value bill kwh s1 pb c <=? score_value bill kwh s2 pb c) = true)
  /\ (forall s pb c1 c2, nonneg s -> nonneg c1 -> (c1 <=? c2) = true ->
     (score_value bill kwh s pb c1 <=? score_value bill kwh s pb c2) = true)
  /\ (forall s p1 p2 c, nonneg s -> nonneg c -> nonneg p1 -> (p1 <=? p2) = true ->
     (score_value bill kwh s p2 c <=? score_value bill kwh s p1 c) = true)
  /\ (forall p, (10 <=? p) = true -> pb_score p = 0).
Proof.
  intros Hb Hk.
  assert (HB : posfin (Py.max bill 1.0)) by (apply max_posfin; [assumption|now split]).
  assert (HE : posfin (Py.max (emissions kwh) 1e-6))
    by (apply max_posfin; [now apply emissions_amount|now split]).
  assert (H10 : posfin 10.0) by (now split).
  assert (H5 : posfin 5.0) by (now split).
  assert (T : forall x c d, nonneg x -> posfin c -> posfin d -> nonneg (x / c * d))
    by auto using mul_nonneg, div_nonneg.
  unfold score_value. repeat split.
  - intros s1 s2 pb c Hs Hle Hc.
    destruct (div_mono _ _ _ Hs Hle HB) as [H1 H1n].
    destruct (mul_mono _ _ _ H1n H1 H10) as [H2 H2n].
    destruct (add_mono _ _ _ H2n H2 (pb_score_nonneg pb)) as (H3 & _ & H3n & _).
    now destruct (add_mono _ _ _ H3n H3 (T c _ _ Hc HE H5)) as (H4 & _).
  - intros s pb c1 c2 Hs Hc Hle.
    destruct (div_mono _ _ _ Hc Hle HE) as [H1 H1n].
    destruct (mul_mono _ _ _ H1n H1 H5) as [H2 H2n].
    assert (Hz : nonneg (s / Py.max bill 1.0 * 10.0 + pb_score pb))
      by auto using add_nonneg, pb_score_nonneg.
    now destruct (add_mono _ _ _ H2n H2 Hz) as (_ & H3 & _).
  - intros s p1 p2 c Hs Hc Hp Hle.
    pose proof (pb_score_antitone p1 p2 Hp Hle) as H1.
    destruct (add_mono _ _ _ (pb_score_nonneg p2) H1 (T s _ _ Hs HB H10))
      as (_ & H2 & _ & H2n).
    now destruct (add_mono _ _ _ H2n H2 (T c _ _ Hc HE H5)) as (H3 & _).
  - apply pb_score_saturates.
Qed.

Lemma score_monotone_witness :
  (score_value 2000000 3500000 1000000 2.875 490
   <=? score_value 2000000 3500000 1400000 2.875 490) = true
  /\ (score_value 2000000 3500000 1400000 2.875 210
      <=? score_value 2000000 3500000 1400000 2.875 490) = true
  /\ (score_value 2000000 3500000 1400000 2.8750000000000004 490
      <=? score_value 2000000 3500000 1400000 2.875 490) = true
  /\ pb_score 12 = 0.
Proof.
  destruct (score_monotone 2000000 3500000 (conj eq_refl eq_refl)
              (conj eq_refl eq_refl)) as (Hs & Hc & Hp & Hz).
  split; [apply Hs; reflexivity|].
  split; [apply Hc; reflexivity|].
  split; [apply Hp; reflexivity|].
  apply Hz; reflexivity.
Defined.





(** ** More on the float operations *)

Lemma SFmul_comm x y : SFmul prec emax x y = SFmul prec emax y x.
Proof.
  destruct x as [sx|sx| |sx mx ex], y as [sy|sy| |sy my ey]; cbn [SFmul];
    rewrite ?(xorb_comm sx sy); try reflexivity.
  now rewrite Pos.mul_comm, Z.add_comm.
Qed.

Lemma mul_comm x y : x * y = y * x.
Proof. apply Prim2SF_inj. rewrite !mul_spec. apply SFmul_comm. Qed.

(** Multiplying a value that is at least zero by a larger positive factor
    never gives less. *)
Lemma mul_mono_r x c1 c2 :
  nonneg x -> posfin c1 -> (c1 <=? c2) = true -> posfin c2 ->
  (x * c1 <=? x * c2) = true.
Proof.
  intros Hx Hc1 Hle Hc2.
  destruct (0 <? x) eqn:E0, (x <? infinity) eqn:E1.
  1: { rewrite !(mul_comm x).
       apply mul_mono; [apply ltb_leb, Hc1|assumption|now split]. }
  all: destruct Hc1 as [A1 A2], Hc2 as [B1 B2];
    destruct (posfin_cases c1 A1 A2) as (m1 & e1 & E1' & _);
    destruct (posfin_cases c2 B1 B2) as (m2 & e2 & E2' & _);
    apply nonneg_nnf in Hx; revert E0 E1;
    rewrite leb_spec, !mul_spec, !ltb_spec, E1', E2';
    change (Prim2SF 0) with (S754_zero false);
    change (Prim2SF infinity) with (S754_infinity false);
    destruct (Prim2SF x) as [s|s| |s m e]; try contradiction;
    try (destruct s; try contradiction); cbn; auto; discriminate.
Qed.

Lemma min_mono c q1 q2 :
  nonneg c -> nonneg q1 -> (q1 <=? q2) = true ->
  (Py.min c q1 <=? Py.min c q2) = true /\ nonneg (Py.min c q1).
Proof.
  intros Hc H1 Hle. pose proof (nonneg_le _ _ H1 Hle) as H2. unfold Py.min.
  destruct (q1 <? c) eqn:E1, (q2 <? c) eqn:E2; split; auto.
  - now apply ltb_leb.
  - apply (leb_trans c q1 q2); auto. now apply leb_total.
  - now apply leb_refl_nonneg.
Qed.

Lemma max_mono c m1 m2 :
  nonneg c -> nonneg m1 -> (m1 <=? m2) = true ->
  (Py.max c m1 <=? Py.max c m2) = true.
Proof.
  intros Hc H1 Hle. pose proof (nonneg_le _ _ H1 Hle) as H2. unfold Py.max.
  destruct (c <? m1) eqn:E1, (c <? m2) eqn:E2; auto.
  - apply (leb_trans m1 m2 c); auto. now apply leb_total.
  - now apply ltb_leb.
  - now apply leb_refl_nonneg.
Qed.

Lemma multiplier_order :
  posfin (multiplier Low) /\ posfin (multiplier Medium) /\ posfin (multiplier High)
  /\ (multiplier Low <=? multiplier Medium) = true
  /\ (multiplier Medium <=? multiplier High) = true.
Proof. repeat split. Qed.

(** ** Further properties of [compute_options] *)

Lemma getitem_unknown f :
  (forall t, f <> tier_key t) -> getitem feas_table f = Raise (KeyError f).
Proof.
  intros H. cbn [getitem feas_table].
  pose proof (H High) as H1. pose proof (H Medium) as H2. pose proof (H Low) as H3.
  apply String.eqb_neq in H1, H2, H3. cbn [tier_key] in *.
  now rewrite H1, H2, H3.
Qed.

Lemma tier_key_dec f : (exists t, f = tier_key t) \/ (forall t, f <> tier_key t).
Proof.
  destruct (String.eqb_spec f (tier_key High)) as [E1|N1]; [left; now exists High|].
  destruct (String.eqb_spec f (tier_key Medium)) as [E2|N2]; [left; now exists Medium|].
  destruct (String.eqb_spec f (tier_key Low)) as [E3|N3]; [left; now exists Low|].
  right. now intros [].
Qed.

(** X1.  A feasibility string that is none of the three keys of the table
    raises [KeyError] with that string, whatever the other arguments and
    whether or not [math] is bound. *)
Theorem unknown_tier_raises_KeyError g bill kwh budget f batt :
  (forall t, f <> tier_key t) ->
  compute_options g bill kwh budget f batt = Raise (KeyError f).
Proof.
  intros H. unfold compute_options, build_options.
  now rewrite getitem_unknown.
Qed.

Lemma unknown_tier_raises_KeyError_witness :
  compute_options app_globals 2000000 3500000 4500000 "High" true
  = Raise (KeyError "High").
Proof.
  apply unknown_tier_raises_KeyError. intros []; discriminate.
Defined.

(** X2.  The outcomes of [compute_options] over all floats, NaN, infinities
    and negative numbers included: a list of three records exactly when the
    tier is known and [math] is bound, [KeyError] of the tier string exactly
    when it is unknown, [NameError] of [math] otherwise; never
    [ZeroDivisionError], every division being guarded. *)
Theorem compute_options_outcomes g bill kwh budget f batt :
  match compute_options g bill kwh budget f batt with
  | Ok l =>
      List.length l = 3%nat /\ bound g "math" = true /\ exists t, f = tier_key t
  | Raise (KeyError k) => k = f /\ forall t, f <> tier_key t
  | Raise (NameError n) =>
      n = "math" /\ bound g "math" = false /\ exists t, f = tier_key t
  | Raise ZeroDivisionError => False
  end.
Proof.
  destruct (tier_key_dec f) as [[t ->]|Hf].
  - destruct (bound g "math") eqn:Hg.
    + rewrite compute_options_eq by assumption.
      split; [|eauto]. now rewrite (Permutation_length (ranking_perm _)).
    + rewrite compute_options_unbound by assumption. eauto.
  - unfold compute_options, build_options. rewrite getitem_unknown by assumption.
    cbn [Py.bind]. auto.
Qed.

Lemma returns_onsite g bill kwh budget t batt :
  bound g "math" = true ->
  returns is_onsite g bill kwh budget (tier_key t) batt
          (scored bill kwh (onsite bill kwh budget t batt)).
Proof.
  intros Hg. eexists. split; [now apply compute_options_eq|].
  apply ranking_select, select_onsite.
Qed.

Lemma returns_ppa g bill kwh budget t batt :
  bound g "math" = true ->
  returns is_ppa g bill kwh budget (tier_key t) batt
          (scored bill kwh (ppa bill kwh t)).
Proof.
  intros Hg. eexists. split; [now apply compute_options_eq|].
  apply ranking_select, select_ppa.
Qed.

Lemma save_frac_mono t1 b1 t2 b2 :
  tier_le t1 t2 -> (b1 = true -> b2 = true) ->
  (save_frac t1 b1 <=? save_frac t2 b2) = true.
Proof.
  unfold tier_le. intros Ht Hb.
  destruct t1, t2; cbn in Ht; try lia;
    destruct b1, b2; try reflexivity; now specialize (Hb eq_refl).
Qed.

Lemma ppa_frac_mono t1 t2 :
  tier_le t1 t2 -> (0.18 * multiplier t1 <=? 0.18 * multiplier t2) = true.
Proof.
  unfold tier_le. intros Ht. destruct t1, t2; cbn in Ht; try lia; reflexivity.
Qed.

Lemma multiplier_mono t1 t2 :
  tier_le t1 t2 -> (multiplier t1 <=? multiplier t2) = true.
Proof.
  unfold tier_le. intros Ht. destruct t1, t2; cbn in Ht; try lia; reflexivity.
Qed.

Lemma multiplier_posfin t : posfin (multiplier t).
Proof. destruct t; now split. Qed.

(** X3.  The on-site CAPEX never exceeds the clamped estimate nor 8000000,
    and never exceeds a positive budget. *)
Theorem onsite_capex_ceiling g bill kwh budget t batt :
  bound g "math" = true ->
  exists o,
    returns is_onsite g bill kwh budget (tier_key t) batt o
    /\ (capex o <=? estimate kwh t) = true
    /\ (capex o <=? 8000000.0) = true
    /\ ((0 <? budget) = true -> (capex o <=? budget) = true).
Proof.
  intros Hg. eexists. split; [now apply returns_onsite|].
  cbn [scored set_score onsite capex]. unfold phase.
  destruct (estimate_within kwh t) as [Hlo Hhi].
  pose proof (estimate_nonneg kwh t) as Hn.
  destruct (0 <? budget) eqn:Hb; cbn [andb].
  - destruct (budget <? estimate kwh t) eqn:Hc; cbn [snd].
    + pose proof (ltb_leb _ _ Hc) as Hle.
      repeat split; auto using pos_leb_refl.
      apply (leb_trans budget (estimate kwh t)); auto. now apply ltb_leb.
    + repeat split; auto using leb_refl_nonneg.
      intros _. apply leb_total; auto. now apply ltb_leb.
  - cbn [snd]. repeat split; auto using leb_refl_nonneg. discriminate.
Qed.

Lemma onsite_capex_ceiling_witness :
  exists o,
    returns is_onsite (with_math app_globals) 2000000 9000000000 6000000
            (tier_key High) true o
    /\ (capex o <=? estimate 9000000000 High) = true
    /\ (capex o <=? 8000000.0) = true
    /\ ((0 <? 6000000) = true -> (capex o <=? 6000000) = true).
Proof.
  exact (onsite_capex_ceiling (with_math app_globals) 2000000 9000000000
           6000000 High true eq_refl).
Defined.

(** X4.  A larger annual bill never lowers the savings of the on-site option
    nor those of the PPA option, the other inputs being the same. *)
Theorem savings_monotone_in_bill g bill1 bill2 kwh budget t batt :
  bound g "math" = true -> nonneg bill1 -> (bill1 <=? bill2) = true ->
  exists o1 o2 p1 p2,
    returns is_onsite g bill1 kwh budget (tier_key t) batt o1
    /\ returns is_onsite g bill2 kwh budget (tier_key t) batt o2
    /\ returns is_ppa g bill1 kwh budget (tier_key t) batt p1
    /\ returns is_ppa g bill2 kwh budget (tier_key t) batt p2
    /\ (annual_savings o1 <=? annual_savings o2) = true
    /\ (annual_savings p1 <=? annual_savings p2) = true.
Proof.
  intros Hg Hb Hle. do 4 eexists.
  split; [now apply returns_onsite|]. split; [now apply returns_onsite|].
  split; [now apply returns_ppa|]. split; [now apply returns_ppa|].
  cbn [scored set_score onsite ppa annual_savings].
  split.
  - apply mul_mono; [assumption..|apply save_frac_posfin].
  - apply mul_mono; [assumption..|apply ppa_frac_posfin].
Qed.

Lemma savings_monotone_in_bill_witness :
  exists o1 o2 p1 p2,
    returns is_onsite (with_math app_globals) 1000000 3500000 4500000 (tier_key Medium) true o1
    /\ returns is_onsite (with_math app_globals) 2000000 3500000 4500000 (tier_key Medium) true o2
    /\ returns is_ppa (with_math app_globals) 1000000 3500000 4500000 (tier_key Medium) true p1
    /\ returns is_ppa (with_math app_globals) 2000000 3500000 4500000 (tier_key Medium) true p2
    /\ (annual_savings o1 <=? annual_savings o2) = true
    /\ (annual_savings p1 <=? annual_savings p2) = true.
Proof.
  exact (savings_monotone_in_bill (with_math app_globals) 1000000 2000000
           3500000 4500000 Medium true eq_refl eq_refl eq_refl).
Defined.

(** X5.  Including the battery and a better feasibility tier never lower the
    on-site option's savings nor its CO2 proxy; a better tier never lowers
    the PPA's savings either. *)
Theorem savings_monotone_in_tier_and_battery g bill kwh budget t1 b1 t2 b2 :
  bound g "math" = true -> nonneg bill -> nonneg kwh ->
  tier_le t1 t2 -> (b1 = true -> b2 = true) ->
  exists o1 o2 p1 p2,
    returns is_onsite g bill kwh budget (tier_key t1) b1 o1
    /\ returns is_onsite g bill kwh budget (tier_key t2) b2 o2
    /\ returns is_ppa g bill kwh budget (tier_key t1) b1 p1
    /\ returns is_ppa g bill kwh budget (tier_key t2) b2 p2
    /\ (annual_savings o1 <=? annual_savings o2) = true
    /\ (co2_saved_t o1 <=? co2_saved_t o2) = true
    /\ (annual_savings p1 <=? annual_savings p2) = true.
Proof.
  intros Hg Hb Hk Ht Hbatt. do 4 eexists.
  split; [now apply returns_onsite|]. split; [now apply returns_onsite|].
  split; [now apply returns_ppa|]. split; [now apply returns_ppa|].
  cbn [scored set_score onsite ppa annual_savings co2_saved_t].
  pose proof (save_frac_mono t1 b1 t2 b2 Ht Hbatt) as Hf.
  destruct (save_frac_posfin t1 b1) as [F1 _], (save_frac_posfin t2 b2) as [F2 _].
  destruct (ppa_frac_posfin t1) as [P1 _], (ppa_frac_posfin t2) as [P2 _].
  repeat split.
  - now apply mul_mono_r.
  - pose proof (mul_mono_r kwh _ _ Hk F1 Hf F2) as H1.
    destruct (mul_mono _ _ co2_factor (mul_nonneg _ _ Hk F1) H1 ltac:(now split))
      as [H2 H2n].
    now destruct (div_mono _ _ 1000.0 H2n H2 ltac:(now split)).
  - apply mul_mono_r; auto using ppa_frac_mono.
Qed.

Lemma savings_monotone_in_tier_and_battery_witness :
  exists o1 o2 p1 p2,
    returns is_onsite (with_math app_globals) 2000000 3500000 4500000 (tier_key Low) false o1
    /\ returns is_onsite (with_math app_globals) 2000000 3500000 4500000 (tier_key High) true o2
    /\ returns is_ppa (with_math app_globals) 2000000 3500000 4500000 (tier_key Low) false p1
    /\ returns is_ppa (with_math app_globals) 2000000 3500000 4500000 (tier_key High) true p2
    /\ (annual_savings o1 <=? annual_savings o2) = true
    /\ (co2_saved_t o1 <=? co2_saved_t o2) = true
    /\ (annual_savings p1 <=? annual_savings p2) = true.
Proof.
  refine (savings_monotone_in_tier_and_battery (with_math app_globals)
            2000000 3500000 4500000 Low false High true eq_refl eq_refl eq_refl
            _ _).
  - unfold tier_le. cbn. lia.
  - discriminate.
Defined.

(** X6.  The clamped CAPEX estimate of line 50 never raises and never
    decreases when the consumption grows or the tier improves. *)
Theorem clamped_capex_monotone kwh1 kwh2 t1 t2 :
  nonneg kwh1 -> (kwh1 <=? kwh2) = true -> tier_le t1 t2 ->
  exists c1 c2,
    clamped_capex kwh1 (multiplier t1) = Ok c1
    /\ clamped_capex kwh2 (multiplier t2) = Ok c2
    /\ (c1 <=? c2) = true.
Proof.
  intros Hk Hle Ht. unfold clamped_capex.
  rewrite !(truediv_nonzero _ 1000) by reflexivity. cbn [Py.bind].
  do 2 eexists. split; [reflexivity|]. split; [reflexivity|].
  destruct (mul_mono kwh1 kwh2 1.15 Hk Hle ltac:(now split)) as [H1 H1n].
  pose proof (nonneg_le _ _ H1n H1) as H1n'.
  destruct (mul_mono _ _ (multiplier t1) H1n H1 (multiplier_posfin t1)) as [H2 H2n].
  pose proof (mul_mono_r (kwh2 * 1.15) _ _ H1n' (multiplier_posfin t1)
                (multiplier_mono _ _ Ht) (multiplier_posfin t2)) as H3.
  pose proof (leb_trans _ _ _ H2n H2 H3) as H4.
  destruct (div_mono _ _ 1000.0 H2n H4 ltac:(now split)) as [H5 H5n].
  destruct (min_mono 8000000.0 _ _ eq_refl H5n H5) as [H6 H6n].
  now apply max_mono.
Qed.

Lemma clamped_capex_monotone_witness :
  exists c1 c2,
    clamped_capex 3500000 (multiplier Low) = Ok c1
    /\ clamped_capex 9000000000 (multiplier High) = Ok c2
    /\ (c1 <=? c2) = true.
Proof.
  refine (clamped_capex_monotone 3500000 9000000000 Low High eq_refl eq_refl _).
  unfold tier_le. cbn. lia.
Defined.

(** ** The recommendation *)

Lemma identity_order_NoDup bill kwh budget t batt :
  NoDup (identity_order bill kwh budget t batt).
Proof.
  apply (NoDup_map_inv name). unfold identity_order.
  cbn [map scored set_score name onsite ppa offsets].
  destruct batt; repeat constructor; cbn; intuition discriminate.
Qed.

Lemma leb_antisym_eqb x y :
  nonneg x -> (x <=? y) = true -> (y <=? x) = true -> (x =? y) = true.
Proof.
  intros Hx Hxy Hyx. pose proof (nonneg_le _ _ Hx Hxy) as Hy.
  pose proof (leb_not_ltb x y Hy Hyx) as E.
  revert Hxy E. rewrite leb_spec, ltb_spec, eqb_spec. unfold SFleb, SFltb, SFeqb.
  now destruct (SFcompare (Prim2SF x) (Prim2SF y)) as [[]|].
Qed.

Lemma filter_head {A} (f : A -> bool) (l : list A) x r :
  filter f l = x :: r ->
  exists l1 l2, l = (l1 ++ x :: l2)%list /\ forallb (fun y => negb (f y)) l1 = true.
Proof.
  induction l as [|y l IH]; cbn [filter]; [discriminate|].
  destruct (f y) eqn:E.
  - intros [= -> <-]. now exists [], l.
  - intros H. destruct (IH H) as (l1 & l2 & -> & Hl1).
    exists (y :: l1), l2. split; [reflexivity|]. cbn. now rewrite E.
Qed.

Lemma split_unique {A} (x : A) a b a' b' :
  ~ In x a -> ~ In x a' ->
  (a ++ x :: b = a' ++ x :: b')%list -> a = a' /\ b = b'.
Proof.
  revert a'. induction a as [|y a IH]; intros [|z a'] Ha Ha' E; cbn in E.
  - injection E as ->. auto.
  - injection E as -> _. destruct Ha'. now left.
  - injection E as -> _. destruct Ha. now left.
  - injection E as -> E.
    destruct (IH a') as [-> ->]; auto; intros H; [apply Ha|apply Ha']; now right.
Qed.

(** In a stable descending sort of a list without duplicates, the head scores
    at least as high as every record, and every record that precedes it in
    the original order scores strictly lower. *)
Lemma head_is_first l0 chosen rest :
  NoDup l0 -> Forall scored_nonneg l0 ->
  stable_descending_sort l0 (chosen :: rest) ->
  Forall (score_ge chosen) (chosen :: rest)
  /\ forall o, before l0 o chosen -> ~ score_ge o chosen.
Proof.
  intros Hnd Hsc (Hperm & Hsorted & Hstable).
  assert (Hin : In chosen l0) by (apply (Permutation_in _ Hperm); now left).
  pose proof (proj1 (Forall_forall _ _) Hsc chosen Hin) as (v & Ev & Hv).
  assert (Hge : Forall (score_ge chosen) (chosen :: rest)).
  { constructor; [unfold score_ge; rewrite Ev; now apply leb_refl_nonneg|].
    now inversion Hsorted. }
  split; [assumption|].
  intros o (l1 & l2 & l3 & El0) Hoc.
  assert (Ho : In o l0) by (rewrite El0; apply in_or_app; right; now left).
  pose proof (proj1 (Forall_forall _ _) Hsc o Ho) as (w & Ew & Hw).
  assert (Hco : score_ge chosen o).
  { apply (proj1 (Forall_forall _ _) Hge).
    now apply (Permutation_in _ (Permutation_sym Hperm)). }
  unfold score_ge in Hoc, Hco. rewrite Ev, Ew in Hoc, Hco.
  assert (Hov : has_score v o = true).
  { unfold has_score. rewrite Ew. now apply leb_antisym_eqb. }
  assert (Hcv : has_score v chosen = true).
  { unfold has_score. rewrite Ev. apply leb_antisym_eqb; auto using leb_refl_nonneg. }
  specialize (Hstable v). cbn [filter] in Hstable. rewrite Hcv in Hstable.
  symmetry in Hstable. apply filter_head in Hstable as (k1 & k2 & Ek & Hk1).
  assert (El0' : l0 = ((l1 ++ o :: l2) ++ chosen :: l3)%list)
    by (rewrite El0, <- app_assoc; reflexivity).
  assert (N1 : ~ In chosen (l1 ++ o :: l2)).
  { rewrite El0' in Hnd. apply NoDup_remove_2 in Hnd.
    intros H. apply Hnd. apply in_or_app. now left. }
  assert (N2 : ~ In chosen k1).
  { rewrite Ek in Hnd. apply NoDup_remove_2 in Hnd.
    intros H. apply Hnd. apply in_or_app. now left. }
  rewrite El0' in Ek. destruct (split_unique _ _ _ _ _ N1 N2 Ek) as [<- _].
  rewrite forallb_app in Hk1. apply andb_prop in Hk1 as [_ Hk1].
  cbn [forallb] in Hk1. rewrite Hov in Hk1. discriminate.
Qed.

(** X7.  On submission with [math] bound and a valid input, the page's
    choice [options_sorted[0]] scores at least as high as every returned
    record, and every record that precedes it in the identity order (on-site,
    PPA, offsets) scores strictly lower: ties go to the earlier option. *)
Theorem recommendation_is_best g bill kwh budget t batt :
  bound g "math" = true -> amount bill -> amount kwh ->
  exists options_sorted chosen,
    recommend g bill kwh budget (tier_key t) batt = inl (options_sorted, chosen)
    /\ Forall (score_ge chosen) options_sorted
    /\ forall o, before (identity_order bill kwh budget t batt) o chosen ->
                 ~ score_ge o chosen.
Proof.
  intros Hg Hb Hk. unfold recommend. rewrite compute_options_eq by assumption.
  assert (Hsc : Forall scored_nonneg (identity_order bill kwh budget t batt)).
  { eapply Forall_impl; [|now apply identity_order_nonneg].
    now intros o (_ & _ & _ & H). }
  pose proof (ranking_stable _ Hsc) as Hs.
  destruct (ranking (identity_order bill kwh budget t batt)) as [|chosen rest] eqn:E.
  - destruct Hs as (Hp & _). apply Permutation_length in Hp. discriminate Hp.
  - do 2 eexists. split; [reflexivity|].
    now apply head_is_first; [apply identity_order_NoDup|..].
Qed.

Lemma recommendation_is_best_witness :
  exists options_sorted chosen,
    recommend (with_math app_globals) 2000000 3500000 4500000 (tier_key High) true
    = inl (options_sorted, chosen)
    /\ Forall (score_ge chosen) options_sorted
    /\ forall o, before (identity_order 2000000 3500000 4500000 High true) o chosen ->
                 ~ score_ge o chosen.
Proof.
  exact (recommendation_is_best (with_math app_globals) 2000000 3500000 4500000
           High true eq_refl (conj eq_refl eq_refl) (conj eq_refl eq_refl)).
Defined.

(** X8.  [options_sorted[0]] never raises [IndexError]: whatever the
    namespace and the arguments, the page either has a choice, which is the
    first of three records, or stops on the engine's own exception. *)
Theorem recommend_never_IndexError g bill kwh budget f batt :
  match recommend g bill kwh budget f batt with
  | inl (options_sorted, chosen) =>
      List.length options_sorted = 3%nat /\ hd_error options_sorted = Some chosen
  | inr (Engine e) => compute_options g bill kwh budget f batt = Raise e
  | inr IndexError => False
  end.
Proof.
  unfold recommend. destruct (tier_key_dec f) as [[t ->]|Hf].
  - destruct (bound g "math") eqn:Hg.
    + rewrite compute_options_eq by assumption.
      pose proof (Permutation_length (ranking_perm (identity_order bill kwh budget t batt))) as Hl.
      destruct (ranking _) as [|chosen rest]; [discriminate Hl|]. now split.
    + now rewrite compute_options_unbound.
  - unfold compute_options, build_options. now rewrite getitem_unknown.
Qed.

(** X9.  The on-site option is phased exactly when the budget is above zero
    and below the clamped estimate: its CAPEX is then the budget and its
    notes say so; otherwise (also for a budget that is zero, negative or not
    a number) its CAPEX is the clamped estimate and the notes are the generic
    ones. *)
Theorem onsite_phased_iff g bill kwh budget t batt :
  bound g "math" = true ->
  exists o,
    returns is_onsite g bill kwh budget (tier_key t) batt o
    /\ (notes o = notes_phased
        <-> ((0 <? budget) = true /\ (budget <? estimate kwh t) = true))
    /\ (notes o = notes_phased -> capex o = budget)
    /\ (notes o <> notes_phased ->
        capex o = estimate kwh t /\ notes o = notes_onsite).
Proof.
  intros Hg. eexists. split; [now apply returns_onsite|].
  cbn [scored set_score onsite capex notes]. unfold phase.
  destruct (0 <? budget); destruct (budget <? estimate kwh t); cbn;
    repeat split; auto; try discriminate; try tauto;
    try (intros [? ?]; discriminate); try (intros H; now destruct H).
Qed.

Lemma onsite_phased_iff_witness :
  exists o,
    returns is_onsite (with_math app_globals) 120000 500000 100000
            (tier_key Medium) true o
    /\ (notes o = notes_phased
        <-> ((0 <? 100000) = true /\ (100000 <? estimate 500000 Medium) = true))
    /\ (notes o = notes_phased -> capex o = 100000)
    /\ (notes o <> notes_phased ->
        capex o = estimate 500000 Medium /\ notes o = notes_onsite).
Proof.
  exact (onsite_phased_iff (with_math app_globals) 120000 500000 100000 Medium true
           eq_refl).
Defined.

(** ** Display *)

Import Ascii DecimalString.

(** ** Number formatting *)

Lemma rhe_div_nearest n d :
  (0 <= n)%Z -> (0 < d)%Z ->
  let q := rhe_div n d in
  (0 <= q)%Z /\ (2 * Z.abs (q * d - n) <= d)%Z
  /\ ((2 * Z.abs (q * d - n) = d)%Z -> Z.even q = true).
Proof.
  intros Hn Hd. unfold rhe_div.
  pose proof (Z.div_mod n d ltac:(lia)) as E.
  pose proof (Z.mod_pos_bound n d Hd) as Hr.
  assert (Hq : (0 <= n / d)%Z) by (apply Z.div_pos; lia).
  set (q := (n / d)%Z) in *. set (r := (n mod d)%Z) in *.
  destruct (Z.ltb_spec (2 * r) d) as [H1|H1]; [|destruct (Z.eqb_spec (2 * r) d) as [H2|H2]].
  - split; [lia|]. split; [nia|]. intros H. exfalso. nia.
  - destruct (Z.even q) eqn:Ev.
    + split; [lia|]. split; [nia|]. auto.
    + split; [lia|]. split; [nia|]. intros _.
      rewrite Z.even_add, Ev. reflexivity.
  - split; [lia|]. split; [nia|]. intros H. exfalso. nia.
Qed.

Lemma scaled_nearest p m e :
  (0 <= scaled p m e)%Z /\ nearest_scaled p m e (scaled p m e).
Proof.
  unfold scaled, nearest_scaled.
  assert (H10 : (0 < 10 ^ Z.of_nat p)%Z) by (apply Z.pow_pos_nonneg; lia).
  set (n := (Z.pos m * 10 ^ Z.of_nat p)%Z). assert (Hn : (0 < n)%Z) by (unfold n; nia).
  destruct (Z.leb_spec 0 e) as [He|He].
  - rewrite (Z.max_r 0 e), (Z.max_l 0 (- e)) by lia.
    pose proof (Z.pow_pos_nonneg 2 e ltac:(lia) He).
    rewrite Z.pow_0_r. repeat split; try nia.
  - rewrite (Z.max_l 0 e), (Z.max_r 0 (- e)), Z.pow_0_r, Z.mul_1_r by lia.
    apply rhe_div_nearest; [lia|apply Z.pow_pos_nonneg; lia].
Qed.

Lemma list_ind3 {A} (P : list A -> Prop) :
  P [] -> (forall a, P [a]) -> (forall a b, P [a; b]) -> (forall a b c, P [a; b; c]) ->
  (forall a b c d rest, P (d :: rest) -> P (a :: b :: c :: d :: rest)) ->
  forall l, P l.
Proof.
  intros H0 H1 H2 H3 H4.
  assert (H : forall n l, (List.length l <= n)%nat -> P l).
  { induction n as [|n IH]; intros l Hl.
    - destruct l; [apply H0|cbn in Hl; lia].
    - destruct l as [|a [|b [|c [|d rest]]]]; auto.
      apply H4. apply IH. cbn in Hl |- *. lia. }
  intros l. now apply (H (List.length l)).
Qed.

Lemma group_rev_strip cs :
  strip_commas (group_rev cs) = strip_commas cs.
Proof.
  induction cs as [| | | |a b c d rest IH] using list_ind3; try reflexivity.
  change (group_rev (a :: b :: c :: d :: rest))
    with (a :: b :: c :: ","%char :: group_rev (d :: rest)).
  unfold strip_commas in *. cbn [filter]. rewrite IH. cbn [filter].
  change (Ascii.eqb "," ",") with true. cbn [negb]. reflexivity.
Qed.

Lemma strip_commas_rev cs : strip_commas (rev cs) = rev (strip_commas cs).
Proof.
  unfold strip_commas. induction cs as [|c cs IH]; [reflexivity|].
  cbn [rev filter]. rewrite filter_app, IH. cbn [filter].
  destruct (negb (Ascii.eqb c ",")); cbn [rev]; now rewrite ?app_nil_r.
Qed.

Lemma strip_commas_digits ds :
  forallb is_digit ds = true -> strip_commas ds = ds.
Proof.
  unfold strip_commas. induction ds as [|c ds IH]; [reflexivity|].
  cbn [forallb filter]. intros H. apply andb_prop in H as [Hc Hds].
  rewrite IH by assumption.
  destruct (Ascii.eqb_spec c ",") as [->|_]; [discriminate Hc|reflexivity].
Qed.

Lemma thousands_strip ds :
  forallb is_digit ds = true -> strip_commas (thousands ds) = ds.
Proof.
  intros H. unfold thousands.
  rewrite strip_commas_rev, group_rev_strip, strip_commas_rev, rev_involutive.
  now apply strip_commas_digits.
Qed.

Lemma uint_digits d :
  forallb is_digit (list_ascii_of_string (NilEmpty.string_of_uint d)) = true.
Proof. induction d; cbn; auto. Qed.

Lemma digits_of_digits n : forallb is_digit (digits_of n) = true.
Proof.
  unfold digits_of, NilZero.string_of_uint.
  destruct (N.to_uint (Z.to_N n)) eqn:E; try reflexivity;
    rewrite <- E at 1; try (rewrite E; apply uint_digits).
Qed.

Lemma group_rev_In c cs : In c (group_rev cs) -> In c cs \/ c = ","%char.
Proof.
  induction cs as [| | | |a b c' d rest IH] using list_ind3; auto.
  change (group_rev (a :: b :: c' :: d :: rest))
    with (a :: b :: c' :: ","%char :: group_rev (d :: rest)).
  cbn [In]. intros [H|[H|[H|[H|H]]]]; auto.
  destruct (IH H) as [H'|H']; auto.
Qed.

Lemma thousands_In c ds : In c (thousands ds) -> In c ds \/ c = ","%char.
Proof.
  unfold thousands. rewrite <- in_rev. intros H.
  apply group_rev_In in H as [H|H]; auto. left. now apply in_rev.
Qed.

Lemma to_uint_nonnil n : N.to_uint n <> Decimal.Nil.
Proof.
  destruct n; [discriminate|]. apply DecimalPos.Unsigned.to_uint_nonnil.
Qed.

Lemma read_digits_thousands n :
  (0 <= n)%Z -> read_digits (thousands (digits_of n)) = Some n.
Proof.
  intros Hn. unfold read_digits.
  rewrite thousands_strip by apply digits_of_digits.
  unfold digits_of. rewrite string_of_list_ascii_of_string.
  rewrite NilZero.usu by apply to_uint_nonnil. cbn [option_map].
  now rewrite DecimalN.Unsigned.of_to, Z2N.id.
Qed.

Lemma read_amount_signed (s : bool) n :
  (0 <= n)%Z ->
  read_amount ((if s then "-" else "")
               ++ string_of_list_ascii (thousands (digits_of n)))
  = Some (s, n).
Proof.
  intros Hn. unfold read_amount. destruct s.
  - cbn [append list_ascii_of_string].
    rewrite list_ascii_of_string_of_list_ascii.
    now rewrite read_digits_thousands.
  - cbn [append]. rewrite list_ascii_of_string_of_list_ascii.
    destruct (thousands (digits_of n)) as [|c rest] eqn:E.
    + now rewrite <- E, read_digits_thousands.
    + assert (Hc : c <> "-"%char).
      { intros ->. assert (H : In "-"%char (thousands (digits_of n))) by (rewrite E; now left).
        apply thousands_In in H as [H|H]; [|discriminate H].
        pose proof (digits_of_digits n) as Hd. rewrite forallb_forall in Hd.
        specialize (Hd _ H). discriminate Hd. }
      assert (R : match (c :: rest)%list with
                  | ("-"%char :: ds)%list => option_map (pair true) (read_digits ds)
                  | ds => option_map (pair false) (read_digits ds)
                  end = option_map (pair false) (read_digits (c :: rest))).
      { destruct c as [[] [] [] [] [] [] [] []]; try reflexivity. now destruct Hc. }
      rewrite R, <- E. now rewrite read_digits_thousands.
Qed.

Lemma fixed_digits_0 n : fixed_digits true 0 n = thousands (digits_of n).
Proof. unfold fixed_digits. cbn [Z.of_nat]. now rewrite Z.pow_0_r, Z.div_1_r. Qed.

(** X10.  [fmt_gbp] of a finite non-zero float reads back as its sign and the
    integer nearest to its magnitude, with ties going to the even integer:
    the amount shown is off by at most half a pound. *)
Theorem fmt_gbp_reads_back x s m e :
  Prim2SF x = S754_finite s m e ->
  exists body n,
    fmt_gbp x = "£" ++ body
    /\ read_amount body = Some (s, n)
    /\ nearest_scaled 0 m e n.
Proof.
  intros H. unfold fmt_gbp, format_f. rewrite H.
  destruct (scaled_nearest 0 m e) as [Hn Hnear].
  do 2 eexists. split; [reflexivity|].
  rewrite fixed_digits_0. split; [now apply read_amount_signed|exact Hnear].
Qed.

Lemma fmt_gbp_reads_back_witness :
  exists body n,
    fmt_gbp 1234.5 = "£" ++ body
    /\ read_amount body = Some (false, n)
    /\ nearest_scaled 0 5429388417957888 (-42) n.
Proof.
  exact (fmt_gbp_reads_back 1234.5 false 5429388417957888 (-42) eq_refl).
Defined.

Lemma group_rev_commas cs :
  forallb is_digit cs = true ->
  (List.length (group_rev cs) mod 4 <> 0 \/ cs = [])%nat
  /\ forall i x, nth_error (group_rev cs) i = Some x ->
       if (i mod 4 =? 3)%nat then x = ","%char else is_digit x = true.
Proof.
  induction cs as [| | | |a b c' d rest IH] using list_ind3; intros Hd.
  - split; [now right|]. intros [|i] x; discriminate.
  - split; [left; discriminate|]. cbn in Hd.
    intros [|[|i]] x; cbn; try discriminate; intros [= <-];
      repeat (apply andb_prop in Hd as [? Hd]); assumption.
  - split; [left; discriminate|]. cbn [forallb] in Hd.
    intros [|[|[|i]]] x; cbn; try discriminate; intros [= <-];
      repeat (apply andb_prop in Hd as [? Hd]); assumption.
  - split; [left; discriminate|]. cbn [forallb] in Hd.
    intros [|[|[|[|i]]]] x; cbn; try discriminate; intros [= <-];
      repeat (apply andb_prop in Hd as [? Hd]); assumption.
  - change (group_rev (a :: b :: c' :: d :: rest))
      with (a :: b :: c' :: ","%char :: group_rev (d :: rest)).
    cbn [forallb] in Hd.
    apply andb_prop in Hd as [Ha Hd]. apply andb_prop in Hd as [Hb Hd].
    apply andb_prop in Hd as [Hc Hd].
    destruct (IH Hd) as [Hlen Hnth]. split.
    + left. destruct Hlen as [Hlen|Hlen]; [|discriminate].
      cbn [List.length]. intros E. apply Hlen.
      replace (S (S (S (S (List.length (group_rev (d :: rest)))))))
        with (List.length (group_rev (d :: rest)) + 1 * 4)%nat in E by lia.
      now rewrite Nat.Div0.mod_add in E.
    + intros [|[|[|[|i]]]] x; cbn [nth_error];
        try (intros [= <-]; cbn; assumption); try (intros [= <-]; reflexivity).
      intros Hi. specialize (Hnth i x Hi).
      replace (S (S (S (S i)))) with (i + 1 * 4)%nat by lia.
      now rewrite Nat.Div0.mod_add.
Qed.

(** X11.  In [fmt_gbp] of a finite non-zero float the digits are grouped in
    threes from the right: counting the characters of the number from its
    last one, every fourth is a comma and all the others are digits, and the
    number does not start with a comma. *)
Theorem fmt_gbp_grouping x s m e :
  Prim2SF x = S754_finite s m e ->
  exists g,
    fmt_gbp x = "£" ++ (if s then "-" else "") ++ string_of_list_ascii g
    /\ (List.length g mod 4 <> 0)%nat
    /\ forall i c, nth_error (rev g) i = Some c ->
         if (i mod 4 =? 3)%nat then c = ","%char else is_digit c = true.
Proof.
  intros H. unfold fmt_gbp, format_f. rewrite H. rewrite fixed_digits_0.
  eexists. split; [reflexivity|]. unfold thousands. rewrite rev_involutive.
  set (ds := digits_of (scaled 0 m e)).
  assert (Hd : forallb is_digit (rev ds) = true).
  { rewrite forallb_forall. intros c Hc. apply in_rev in Hc.
    pose proof (digits_of_digits (scaled 0 m e)) as Hds.
    rewrite forallb_forall in Hds. now apply Hds. }
  destruct (group_rev_commas (rev ds) Hd) as [Hlen Hnth].
  split; [|exact Hnth]. rewrite length_rev.
  destruct Hlen as [Hlen|Hlen]; [assumption|].
  exfalso. assert (E : ds = []) by (now rewrite <- (rev_involutive ds), Hlen).
  unfold ds, digits_of in E.
  apply (f_equal string_of_list_ascii) in E.
  rewrite string_of_list_ascii_of_string in E.
  pose proof (NilZero.usu _ (to_uint_nonnil (Z.to_N (scaled 0 m e)))) as U.
  rewrite E in U. discriminate U.
Qed.

Lemma fmt_gbp_grouping_witness :
  exists g,
    fmt_gbp 12345678.9 = "£" ++ "" ++ string_of_list_ascii g
    /\ (List.length g mod 4 <> 0)%nat
    /\ forall i c, nth_error (rev g) i = Some c ->
         if (i mod 4 =? 3)%nat then c = ","%char else is_digit c = true.
Proof.
  exact (fmt_gbp_grouping 12345678.9 false 6628035890302157 (-29) eq_refl).
Defined.

Lemma rhe_div_Key n d : (0 <= n -> 0 < d -> rhe_div n d = rne_key (Key n d))%Z.
Proof.
  intros Hn Hd. unfold rhe_div, rne_key, Key.
  pose proof (Z.div_mod n d ltac:(lia)) as E.
  pose proof (Z.mod_pos_bound n d Hd) as B.
  set (q := (n / d)%Z) in *. set (r := (n mod d)%Z) in *.
  assert (Hq : (0 <= q)%Z) by (apply Z.div_pos; lia).
  destruct (Z.ltb_spec (2 * r) d) as [Hlt|Hge].
  - destruct (div_mod_unique (2 * n) d (2 * q) (2 * r)) as [E1 E2]; [lia|lia|].
    rewrite E1, E2.
    destruct (Z.eqb_spec (2 * r) 0) as [Hr|Hr].
    + replace (2 * (2 * q) + 0)%Z with (4 * q)%Z by lia.
      replace ((4 * q) mod 4)%Z with 0%Z by (Z.div_mod_to_equations; lia).
      replace ((4 * q) / 4)%Z with q by (Z.div_mod_to_equations; lia).
      reflexivity.
    + replace ((2 * (2 * q) + 1) mod 4)%Z with 1%Z by (Z.div_mod_to_equations; lia).
      replace ((2 * (2 * q) + 1) / 4)%Z with q by (Z.div_mod_to_equations; lia).
      reflexivity.
  - destruct (div_mod_unique (2 * n) d (2 * q + 1) (2 * r - d)) as [E1 E2]; [lia|lia|].
    rewrite E1, E2.
    destruct (Z.eqb_spec (2 * r) d) as [Hr|Hr].
    + replace (2 * r - d =? 0)%Z with true by (symmetry; apply Z.eqb_eq; lia).
      replace ((2 * (2 * q + 1) + 0) mod 4)%Z with 2%Z by (Z.div_mod_to_equations; lia).
      replace ((2 * (2 * q + 1) + 0) / 4)%Z with q by (Z.div_mod_to_equations; lia).
      reflexivity.
    + replace (2 * r - d =? 0)%Z with false by (symmetry; apply Z.eqb_neq; lia).
      replace ((2 * (2 * q + 1) + 1) mod 4)%Z with 3%Z by (Z.div_mod_to_equations; lia).
      replace ((2 * (2 * q + 1) + 1) / 4)%Z with q by (Z.div_mod_to_equations; lia).
      reflexivity.
Qed.

Lemma pounds_Key f :
  nnfin f ->
  pounds f = rne_key (Key (mant f * 2 ^ Z.max 0 (expo 0 f))
                          (2 ^ Z.max 0 (- expo 0 f))).
Proof.
  destruct f as [s|s| |[] m e]; try contradiction; intros _.
  - cbn [pounds mant expo]. change (0 * _)%Z with 0%Z.
    change (2 ^ Z.max 0 (- 0))%Z with 1%Z. now rewrite (Key_int 0), (rne_key_int 0).
  - cbn [pounds mant expo]. unfold scaled. cbn [Z.of_nat].
    rewrite Z.pow_0_r, Z.mul_1_r.
    destruct (Z.leb_spec 0 e) as [He|He].
    + rewrite (Z.max_r 0 e), (Z.max_l 0 (- e)) by lia. rewrite Z.pow_0_r.
      assert (0 <= Z.pos m * 2 ^ e)%Z by (pose proof (pow2_pos e He); nia).
      now rewrite Key_int, rne_key_int.
    + rewrite (Z.max_l 0 e), (Z.max_r 0 (- e)) by lia.
      rewrite Z.pow_0_r, Z.mul_1_r. apply rhe_div_Key; [lia|].
      apply pow2_pos; lia.
Qed.

Lemma pounds_mono f1 f2 :
  nnfin f1 -> nnfin f2 -> SFleb f1 f2 = true -> (pounds f1 <= pounds f2)%Z.
Proof.
  intros H1 H2 Hle. rewrite (pounds_Key f1 H1), (pounds_Key f2 H2).
  pose proof (vle_mant 0 f1 f2 H1 H2 Hle) as V.
  set (m1 := mant f1) in *. set (m2 := mant f2) in *.
  set (e1 := expo 0 f1) in *. set (e2 := expo 0 f2) in *.
  assert (Hm1 : (0 <= m1)%Z) by (unfold m1; destruct f1; cbn; lia).
  set (L := Z.min 0 (Z.min e1 e2)).
  pose proof (vle_at _ _ _ _ _ _ L V ltac:(lia) ltac:(lia)) as I.
  rewrite !Z.mul_1_r in I.
  set (K := (Z.max 0 (- e1) + Z.max 0 (- e2))%Z).
  assert (HK : (0 <= K + L)%Z) by lia.
  pose proof (pow2_pos (K + L) HK) as P.
  assert (A1 : (m1 * 2 ^ Z.max 0 e1 * 2 ^ Z.max 0 (- e2) = m1 * 2 ^ (e1 - L) * 2 ^ (K + L))%Z).
  { rewrite <- !Z.mul_assoc, <- !Z.pow_add_r by lia. do 2 f_equal. lia. }
  assert (A2 : (m2 * 2 ^ Z.max 0 e2 * 2 ^ Z.max 0 (- e1) = m2 * 2 ^ (e2 - L) * 2 ^ (K + L))%Z).
  { rewrite <- !Z.mul_assoc, <- !Z.pow_add_r by lia. do 2 f_equal. lia. }
  apply rne_key_mono. split.
  - apply Key_nonneg; [|apply pow2_pos; lia].
    pose proof (pow2_pos (Z.max 0 e1) ltac:(lia)). nia.
  - apply Key_mono; try (apply pow2_pos; lia).
    + pose proof (pow2_pos (Z.max 0 e1) ltac:(lia)). nia.
    + rewrite A1, A2. apply Z.mul_le_mono_nonneg_r; lia.
Qed.

Lemma fmt_gbp_pounds x :
  nnfin (Prim2SF x) ->
  exists body s,
    fmt_gbp x = "£" ++ body /\ read_amount body = Some (s, pounds (Prim2SF x)).
Proof.
  unfold fmt_gbp, format_f.
  destruct (Prim2SF x) as [s|s| |s m e]; try contradiction; intros _;
    rewrite fixed_digits_0; cbn [pounds]; do 2 eexists;
    (split; [reflexivity|]); apply read_amount_signed; [lia|].
  apply scaled_nearest.
Qed.

(** X12.  [fmt_gbp] keeps the order of amounts: of two amounts, the larger
    one is never shown as the smaller number of pounds. *)
Theorem fmt_gbp_monotone x y :
  amount x -> amount y -> (x <=? y) = true ->
  exists bx sx nx by_ sy ny,
    fmt_gbp x = "£" ++ bx /\ read_amount bx = Some (sx, nx)
    /\ fmt_gbp y = "£" ++ by_ /\ read_amount by_ = Some (sy, ny)
    /\ (nx <= ny)%Z.
Proof.
  intros Hx Hy Hle.
  pose proof (amount_nnfin x Hx) as Nx. pose proof (amount_nnfin y Hy) as Ny.
  destruct (fmt_gbp_pounds x Nx) as (bx & sx & Ex & Rx).
  destruct (fmt_gbp_pounds y Ny) as (by_ & sy & Ey & Ry).
  exists bx, sx, (pounds (Prim2SF x)), by_, sy, (pounds (Prim2SF y)).
  repeat (split; [assumption|]).
  apply pounds_mono; try assumption. now rewrite <- leb_spec.
Qed.

Lemma fmt_gbp_monotone_witness :
  exists bx sx nx by_ sy ny,
    fmt_gbp 999.5 = "£" ++ bx /\ read_amount bx = Some (sx, nx)
    /\ fmt_gbp 1000.4 = "£" ++ by_ /\ read_amount by_ = Some (sy, ny)
    /\ (nx <= ny)%Z.
Proof.
  exact (fmt_gbp_monotone 999.5 1000.4 (conj eq_refl eq_refl) (conj eq_refl eq_refl)
           eq_refl).
Defined.


Lemma table_row_eq g i o :
  bound g "fmt_gbp" = true -> bound g "math" = true ->
  table_row g i o
  = Ok [str_nat i; name o; fmt_gbp (capex o); fmt_gbp (annual_savings o);
        if isinf (payback_years o) then "∞" else format_f false 2 (payback_years o);
        format_f false 0 (co2_saved_t o)].
Proof.
  intros Hf Hm. unfold table_row, load_global. now rewrite Hf, Hm.
Qed.


Lemma offsets_cells o bill kwh budget t batt :
  In o (identity_order bill kwh budget t batt) ->
  name o = name_offsets ->
  annual_savings o = 0 /\ payback_years o = infinity.
Proof.
  unfold identity_order. cbn [map In].
  intros [<-|[<-|[<-|[]]]]; cbn; try discriminate; auto.
  destruct batt; discriminate.
Qed.

(** X14.  The options table built from what [compute_options] returns has the
    header and three rows, ranked "1", "2", "3" in the order of the ranking,
    and the row of the offsets option shows savings of £0 and the payback
    "∞". *)
Theorem table_of_ranking g bill kwh budget t batt :
  bound g "math" = true -> bound g "fmt_gbp" = true ->
  exists options_sorted rows,
    compute_options g bill kwh budget (tier_key t) batt = Ok options_sorted
    /\ table_data g options_sorted = Ok (table_header :: rows)
    /\ map (cell 0) rows = ["1"; "2"; "3"]
    /\ map (cell 1) rows = map name options_sorted
    /\ forall row, In row rows -> cell 1 row = name_offsets ->
         cell 3 row = "£0" /\ cell 4 row = "∞".
Proof.
  intros Hm Hf. rewrite (compute_options_eq g bill kwh budget t batt Hm).
  pose proof (ranking_perm (identity_order bill kwh budget t batt)) as P.
  remember (ranking (identity_order bill kwh budget t batt)) as l eqn:El.
  clear El.
  assert (Hin : forall o, In o l -> In o (identity_order bill kwh budget t batt))
    by (intros o; apply Permutation_in, P).
  pose proof (Permutation_length P) as Hlen. cbn in Hlen.
  destruct l as [|a [|b [|c [|d l]]]]; try discriminate Hlen.
  exists [a; b; c]. eexists. split; [reflexivity|].
  unfold table_data. cbn [firstn enumerate mapM].
  rewrite !table_row_eq by assumption. cbn [Py.bind].
  split; [reflexivity|]. split; [reflexivity|]. split; [reflexivity|].
  assert (Hrow : forall o, In o [a; b; c] -> name o = name_offsets ->
            fmt_gbp (annual_savings o) = "£0"
            /\ (if isinf (payback_years o) then "∞"
                else format_f false 2 (payback_years o)) = "∞").
  { intros o Ho Hn. destruct (offsets_cells o _ _ _ _ _ (Hin o Ho) Hn) as [-> ->].
    split; reflexivity. }
  intros row [<-|[<-|[<-|[]]]]; cbn [cell nth]; apply Hrow; cbn [In]; auto.
Qed.

Lemma table_of_ranking_witness :
  exists options_sorted rows,
    compute_options (with_math app_globals) 120000 500000 100000
                    (tier_key Medium) true = Ok options_sorted
    /\ table_data (with_math app_globals) options_sorted = Ok (table_header :: rows)
    /\ map (cell 0) rows = ["1"; "2"; "3"]
    /\ map (cell 1) rows = map name options_sorted
    /\ forall row, In row rows -> cell 1 row = name_offsets ->
         cell 3 row = "£0" /\ cell 4 row = "∞".
Proof.
  exact (table_of_ranking (with_math app_globals) 120000 500000 100000 Medium true
           eq_refl eq_refl).
Defined.
